(** * Off-policy Monte Carlo control with weighted importance sampling

    A shallow embedding of the notebook
    [racetrack/Racetrack (off-policy, weighted importance sampling).ipynb]:
    the two policy constructors [create_random_policy] and
    [create_greedy_policy], and the control loop
    [mc_control_importance_sampling] (episode generation followed by the
    reverse traversal that updates [C] and [Q]).

    Modelling conventions.
    - Python floats and numpy [float64] cells are exact rationals ([Q] of
      the standard library, compared with [==]).  A division whose
      denominator is zero has no rational value (numpy would produce an
      infinity or a NaN there): the model stops with [ZeroDivision].
    - [Q] and [C] are [defaultdict]s whose factory builds
      [np.zeros(env.action_space.n)]: a [gmap] from states to rows, with an
      accessor [getitem] that inserts the zero row on a miss, as
      [defaultdict.__getitem__] does.
    - numpy arrays are lists; an index outside the row is [IndexError].
    - The environment and numpy's random generator are outside the
      notebook: they are section variables acting on an abstract [World].
    - The progress line printed every 1000 episodes is not modelled.
    - Rounding is outside this model.  Where a statement depends on the
      order of the floating-point operations it is an equation between
      the operations of the code in the order of the code, and
      [Binary64] evaluates the accumulation of the return on binary64
      numbers. *)

From Stdlib Require Import QArith Lqa.
From Stdlib Require Floats.
From stdpp Require Import base option list gmap.

(** The numeric type of rewards, returns, weights and table cells. *)
Abbreviation num := Q (only parsing).

(** ** Errors *)

Inductive error : Type :=
| IndexError      (* row[i] with i outside the row *)
| ZeroDivision    (* x / 0 *)
| ValueError.     (* np.argmax of an empty array *)

Inductive result (A : Type) : Type :=
| Ok (a : A)
| Err (e : error).
Arguments Ok {A} a.
Arguments Err {A} e.

#[global] Instance result_ret : MRet result := fun _ a => Ok a.
#[global] Instance result_bind : MBind result := fun _ _ k m =>
  match m with
  | Ok a => k a
  | Err e => Err e
  end.

(** [x / y], faulting on a zero denominator. *)
Definition divide (x y : num) : result num :=
  if Qeq_bool y 0 then Err ZeroDivision else Ok (x / y)%Q.

(** [row[i]] for reading. *)
Definition index (row : list num) (i : nat) : result num :=
  match row !! i with
  | Some x => Ok x
  | None => Err IndexError
  end.

(** ** [np.argmax]: the first index holding the maximum *)

(** Scan of the rest of the array: [i] is the index of the head of [l],
    [best] the largest value seen so far and [bi] the index where it was
    first seen; a later value replaces it only when strictly larger. *)
Fixpoint argmax_from (l : list num) (i : nat) (best : num) (bi : nat) : nat :=
  match l with
  | [] => bi
  | x :: l' =>
      match (best ?= x)%Q with
      | Lt => argmax_from l' (S i) x i
      | _ => argmax_from l' (S i) best bi
      end
  end.

Definition argmax (l : list num) : result nat :=
  match l with
  | [] => Err ValueError
  | x :: l' => Ok (argmax_from l' 1 x 0)
  end.

(** [i] is the position of the maximum of [row], the lowest one on ties. *)
Definition first_max (row : list num) (i : nat) : Prop :=
  ∃ m, row !! i = Some m
       ∧ (∀ j x, row !! j = Some x → (x <= m)%Q)
       ∧ (∀ j x, j < i → row !! j = Some x → (x < m)%Q).

(** A distribution that is 1 at [i] and 0 at the other [n - 1] indices. *)
Definition one_hot (n i : nat) (dist : list num) : Prop :=
  length dist = n
  ∧ dist !! i = Some 1%Q
  ∧ ∀ j, j ≠ i → j < n → dist !! j = Some 0%Q.

(** The sum of the entries of a distribution. *)
Definition total (dist : list num) : num := foldr Qplus 0%Q dist.

(** ** The accumulation of the return on binary64 numbers

    [G = discount_factor * G + reward] with the floating-point
    operations the notebook runs on. *)
Module Binary64.
Import Floats.

Definition return_step (discount_factor G reward : float) : float :=
  (discount_factor * G + reward)%float.

(** [G] after the iterations on the given rewards, the latest first,
    from [G = 0.0]. *)
Definition accumulate (discount_factor : float) (latest_first : list float)
  : float :=
  fold_left (return_step discount_factor) latest_first 0%float.




End Binary64.

Section Racetrack.

(** States are opaque hashable keys. *)
Context {State : Type} `{Countable State}.

(** [env.action_space.n] *)
Variable nA : nat.

(** An entry of an episode: [(state, action, reward)]. *)
Definition entry : Type := State * nat * num.

Abbreviation table := (gmap State (list num)).

(** ** The [defaultdict] accessor *)

(** [np.zeros(env.action_space.n)] *)
Definition zeros : list num := replicate nA 0%Q.

(** [T[state]]: the row, and the table with the row inserted when it
    was missing. *)
Definition getitem (T : table) (s : State) : list num * table :=
  match T !! s with
  | Some row => (row, T)
  | None => (zeros, <[s := zeros]> T)
  end.

(** [T[state][action]] for reading. *)
Definition read (T : table) (s : State) (a : nat) : result (num * table) :=
  let '(row, T1) := getitem T s in
  x ← index row a;
  Ok (x, T1).

(** [T[state][action] += w]: the row is updated in place. *)
Definition add_at (T : table) (s : State) (a : nat) (w : num) : result table :=
  let '(row, T1) := getitem T s in
  x ← index row a;
  Ok (<[s := <[a := (x + w)%Q]> row]> T1).

(** The value a reader sees in a cell, a missing row reading as zeros. *)
Definition cell (T : table) (s : State) (a : nat) : num :=
  match T !! s with
  | Some row => default 0%Q (row !! a)
  | None => 0%Q
  end.

(** Every stored row has one cell per action. *)
Definition wf_table (T : table) : Prop :=
  ∀ s row, T !! s = Some row → length row = nA.

(** ** [create_random_policy] *)

(** [A = np.ones(nA, dtype=float) / nA]; [policy_fn] returns [A]. *)
Definition create_random_policy : State → list num :=
  let A := (λ x, x / inject_Z (Z.of_nat nA))%Q <$> replicate nA 1%Q in
  fun observation => A.

(** ** [create_greedy_policy] *)

(** [policy_fn(state)] of the closure over [Q]; both [Q[state]] go
    through the [defaultdict]. *)
Definition policy_fn (Qt : table) (s : State) : result (list num * table) :=
  let '(row, Q1) := getitem Qt s in
  let A := replicate (length row) 0%Q in
  let '(row', Q2) := getitem Q1 s in
  best_action ← argmax row';
  Ok (<[best_action := 1%Q]> A, Q2).

(** ** [mc_control_importance_sampling] *)

(** The environment ([env.reset], [env.step]) and the random draw
    [np.random.choice(np.arange(len(probs)), p=probs)] act on a world. *)
Variable World : Type.
Variable reset : World → State * World.
Variable step : World → nat → State * num * bool * World.
Variable choice : World → list num → nat * World.

Variable behavior_policy : State → list num.
Variable discount_factor : num.

Definition MAX_STEP : nat := 70.

(** The generation loop [for t in range(MAX_STEP)], [n] iterations being
    left.  The flag tells whether the loop was left through [break]. *)
Fixpoint rollout (n : nat) (state : State) (w : World)
  : list entry * bool * World :=
  match n with
  | 0 => ([], false, w)
  | S n' =>
      let probs := behavior_policy state in
      let '(action, w1) := choice w probs in
      let '(next_state, reward, done, w2) := step w1 action in
      if done then ([(state, action, reward)], true, w2)
      else
        let '(episode, broke, w3) := rollout n' next_state w2 in
        ((state, action, reward) :: episode, broke, w3)
  end.

Definition generate_episode (w : World) : list entry * bool * World :=
  let '(state, w1) := reset w in
  rollout MAX_STEP state w1.

(** What a trajectory records, as the contract of the episode generator
    words it: from [state] in world [w], each entry is one step taken,
    its action drawn from the behavior policy at the current state and
    its reward returned by the environment for that action; the state of
    the next entry is the state the environment moved to; every step but
    the last was reported not done, and [last_done] is what the
    environment reported for the last step ([false] when no step was
    taken).  The budget plays no part here. *)
Inductive interaction : State → World → list entry → bool → World → Prop :=
| interaction_none state w :
    interaction state w [] false w
| interaction_last state w action w1 next_state reward last_done w2 :
    choice w (behavior_policy state) = (action, w1) →
    step w1 action = (next_state, reward, last_done, w2) →
    interaction state w [(state, action, reward)] last_done w2
| interaction_more state w action w1 next_state reward w2 x episode
    last_done w3 :
    choice w (behavior_policy state) = (action, w1) →
    step w1 action = (next_state, reward, false, w2) →
    interaction next_state w2 (x :: episode) last_done w3 →
    interaction state w ((state, action, reward) :: x :: episode)
      last_done w3.

(** The variables of the reverse traversal. *)
Record LoopState : Type := mkLoop {
  st_t : nat;
  st_G : num;
  st_W : num;
  st_C : table;
  st_Q : table
}.

(** The target policy is the greedy policy closed over the live [Q]: each
    call reads the contents [Q] has at that moment. *)
Definition target_policy : table → State → result (list num * table) :=
  policy_fn.

(** The updates of [G], [C] and [Q] of one iteration. *)
Definition value_update (t : nat) (x : entry) (st : LoopState)
  : result LoopState :=
  let '(state, action, reward) := x in
  let G := (discount_factor * st_G st + reward)%Q in
  C1 ← add_at (st_C st) state action (st_W st);
  '(c, C2) ← read C1 state action;
  ratio ← divide (st_W st) c;
  '(q, Q1) ← read (st_Q st) state action;
  let qd := (ratio * (G - q))%Q in
  Q2 ← add_at Q1 state action qd;
  Ok (mkLoop t G (st_W st) C2 Q2).

(** The consistency check and the update of [W]; [true] means [break]. *)
Definition policy_check (x : entry) (st : LoopState)
  : result (LoopState * bool) :=
  let '(state, action, reward) := x in
  '(dist, Q3) ← target_policy (st_Q st) state;
  best ← argmax dist;
  if decide (action ≠ best) then
    Ok (mkLoop (st_t st) (st_G st) (st_W st) (st_C st) Q3, true)
  else
    bepol ← index (behavior_policy state) action;
    W ← divide (st_W st * 1)%Q bepol;
    Ok (mkLoop (st_t st) (st_G st) W (st_C st) Q3, false).

(** One iteration of the reverse traversal. *)
Definition backward_step (t : nat) (x : entry) (st : LoopState)
  : result (LoopState * bool) :=
  st1 ← value_update t x st;
  policy_check x st1.

(** [for t in range(len(episode))[::-1]] with [n] indices left:
    [t] runs over [n - 1, ..., 0]. *)
Fixpoint reverse_traversal (episode : list entry) (n : nat) (st : LoopState)
  : result LoopState :=
  match n with
  | 0 => Ok st
  | S t =>
      match episode !! t with
      | None => Err IndexError
      | Some x =>
          '(st', broke) ← backward_step t x st;
          if (broke : bool) then Ok st' else reverse_traversal episode t st'
      end
  end.

(** The loop variables when a reverse traversal starts: [G = 0.0],
    [W = 1.0]; [t] still holds the last index of the generation loop. *)
Definition fresh (t : nat) (Ct Qt : table) : LoopState :=
  mkLoop t 0%Q 1%Q Ct Qt.

Definition backward_pass (episode : list entry) (Ct Qt : table)
  : result LoopState :=
  reverse_traversal episode (length episode)
    (fresh (length episode - 1) Ct Qt).

(** The body of [for i_episode in range(1, num_episodes + 1)]. *)
Definition run_episode (w : World) (Ct Qt : table)
  : result (table * table * World) :=
  let '(episode, _, w1) := generate_episode w in
  st ← backward_pass episode Ct Qt;
  Ok (st_C st, st_Q st, w1).

Fixpoint episodes (n : nat) (w : World) (Ct Qt : table)
  : result (table * table * World) :=
  match n with
  | 0 => Ok (Ct, Qt, w)
  | S n' =>
      '(Ct', Qt', w1) ← run_episode w Ct Qt;
      episodes n' w1 Ct' Qt'
  end.

(** Returns [Q]; the returned [target_policy] is [policy_fn] on it. *)
Definition mc_control_importance_sampling (w : World) (num_episodes : nat)
  : result (table * World) :=
  '(Ct, Qt, w1) ← episodes num_episodes w ∅ ∅;
  Ok (Qt, w1).

(** ** Invariants of a run *)

(** No cell is negative. *)
Definition nonneg (T : table) : Prop := ∀ s a, (0 <= cell T s a)%Q.

(** Cell by cell, [T'] is at least [T]. *)
Definition table_le (T T' : table) : Prop :=
  ∀ s a, (cell T s a <= cell T' s a)%Q.

(** The behavior policy gives the action taken in [x] a positive
    probability. *)
Definition taken_positive (x : entry) : Prop :=
  ∀ p, behavior_policy x.1.1 !! x.1.2 = Some p → (0 < p)%Q.

(** The loop states of a run that starts from empty tables: every
    traversal starts from [G = 0], [W = 1] on the tables the run has
    built so far, and an iteration is taken on an entry [x] when its
    precondition [P] holds. *)
Inductive reach (P : LoopState → entry → Prop) : LoopState → Prop :=
| reach_start t :
    reach P (fresh t ∅ ∅)
| reach_episode st t :
    reach P st →
    reach P (fresh t (st_C st) (st_Q st))
| reach_step st t x st' broke :
    reach P st →
    P st x →
    backward_step t x st = Ok (st', broke) →
    reach P st'.

(** The precondition of an iteration in terms of the running weight. *)
Definition weight_positive (st : LoopState) (x : entry) : Prop :=
  (0 < st_W st)%Q.

(** The precondition of an iteration in terms of the behavior policy. *)
Definition policy_positive (st : LoopState) (x : entry) : Prop :=
  taken_positive x.

(** The draw only returns actions to which [probs] gives a positive
    probability. *)
Definition choice_positive : Prop :=
  ∀ w probs p, probs !! (choice w probs).1 = Some p → (0 < p)%Q.

(** ** Notions used to state further properties *)

(** The rewards of a list of entries, in the order of the list. *)
Definition rewards (episode : list entry) : list num :=
  (λ x : entry, x.2) <$> episode.

(** The discounted return of rewards in chronological order: the first
    reward plus [discount_factor] times the return of the rest, [G0]
    standing for the return after the last reward. *)
Fixpoint discounted_return (G0 : num) (rs : list num) : num :=
  match rs with
  | [] => G0
  | r :: rs' => (discount_factor * discounted_return G0 rs' + r)%Q
  end.

(** The behavior policy returns one probability per action. *)
Definition policy_sized : Prop :=
  ∀ s, length (behavior_policy s) = nA.

(** A draw from a distribution of the behavior policy is one of its
    indices, as [np.arange(len(probs))] has it. *)
Definition drawn_in_range : Prop :=
  ∀ w s, (choice w (behavior_policy s)).1 < length (behavior_policy s).

(** A draw from a distribution of the behavior policy has a positive
    probability in it. *)
Definition drawn_positive : Prop :=
  ∀ w s p,
    behavior_policy s !! (choice w (behavior_policy s)).1 = Some p →
    (0 < p)%Q.

(** A draw from a non-empty distribution is one of its indices. *)
Definition choice_in_range : Prop :=
  ∀ w probs, probs ≠ [] → (choice w probs).1 < length probs.

(** An entry whose action is an index of the rows and has a positive
    probability under the behavior policy. *)
Definition valid_entry (x : entry) : Prop :=
  x.1.2 < nA ∧ taken_positive x.

(** What the reverse traversal keeps from one iteration to the next. *)
Definition loop_invariant (st : LoopState) : Prop :=
  wf_table (st_C st) ∧ wf_table (st_Q st)
  ∧ nonneg (st_C st) ∧ (0 < st_W st)%Q.

(** * Properties *)

(** ** The error monad *)

Lemma bind_Ok {A B} (m : result A) (k : A → result B) (b : B) :
  m ≫= k = Ok b → ∃ a, m = Ok a ∧ k a = Ok b.
Proof. destruct m as [a|e]; [eauto | discriminate]. Qed.

Lemma index_Ok (row : list num) (i : nat) (x : num) :
  index row i = Ok x ↔ row !! i = Some x.
Proof. unfold index. destruct (row !! i); split; congruence. Qed.

Lemma index_lt (row : list num) (i : nat) :
  i < length row → ∃ x, index row i = Ok x ∧ row !! i = Some x.
Proof.
  intros Hi. destruct (lookup_lt_is_Some_2 row i Hi) as [x Hx].
  exists x. split; [by apply index_Ok | done].
Qed.

Lemma divide_Ok (x y : num) : ¬ (y == 0)%Q → divide x y = Ok (x / y)%Q.
Proof.
  intros Hy. unfold divide.
  destruct (Qeq_bool y 0) eqn:E; [|done].
  by apply Qeq_bool_eq in E.
Qed.

Lemma divide_inv (x y z : num) :
  divide x y = Ok z → ¬ (y == 0)%Q ∧ z = (x / y)%Q.
Proof.
  unfold divide. destruct (Qeq_bool y 0) eqn:E; [discriminate|].
  intros [= <-]. split; [|done].
  intros Hy. apply Qeq_eq_bool in Hy. congruence.
Qed.

(** ** [argmax] returns the first maximum *)

Lemma argmax_from_first_max (l pre : list num) (best : num) (bi : nat) :
  pre !! bi = Some best →
  (∀ j x, pre !! j = Some x → (x <= best)%Q) →
  (∀ j x, j < bi → pre !! j = Some x → (x < best)%Q) →
  first_max (pre ++ l) (argmax_from l (length pre) best bi).
Proof.
  revert pre best bi.
  induction l as [|x l IH]; intros pre best bi Hbi Hle Hlt; simpl.
  - rewrite app_nil_r. by exists best.
  - assert (Hlen : length (pre ++ [x]) = S (length pre))
      by (rewrite length_app; simpl; lia).
    replace (pre ++ x :: l) with ((pre ++ [x]) ++ l)
      by (by rewrite <- app_assoc).
    destruct (best ?= x)%Q eqn:E; rewrite <- Hlen.
    + apply IH.
      * by rewrite lookup_app_l by (by eapply lookup_lt_Some).
      * intros j y Hj. apply lookup_app_Some in Hj as [Hj|[_ Hj]]; [eauto|].
        apply list_lookup_singleton_Some in Hj as [_ <-].
        apply Qeq_alt in E. rewrite E. apply Qle_refl.
      * intros j y Hjb Hj. rewrite lookup_app_l in Hj; [eauto|].
        apply lookup_lt_Some in Hbi. lia.
    + apply Qlt_alt in E. apply IH.
      * rewrite lookup_app_r by lia. by rewrite Nat.sub_diag.
      * intros j y Hj. apply lookup_app_Some in Hj as [Hj|[_ Hj]].
        -- apply Qlt_le_weak. eapply Qle_lt_trans; [|exact E]. eauto.
        -- apply list_lookup_singleton_Some in Hj as [_ <-]. apply Qle_refl.
      * intros j y Hjb Hj. rewrite lookup_app_l in Hj by lia.
        eapply Qle_lt_trans; [|exact E]. eauto.
    + apply Qgt_alt in E. apply IH.
      * by rewrite lookup_app_l by (by eapply lookup_lt_Some).
      * intros j y Hj. apply lookup_app_Some in Hj as [Hj|[_ Hj]]; [eauto|].
        apply list_lookup_singleton_Some in Hj as [_ <-].
        by apply Qlt_le_weak.
      * intros j y Hjb Hj. rewrite lookup_app_l in Hj; [eauto|].
        apply lookup_lt_Some in Hbi. lia.
Qed.

Lemma first_max_unique (row : list num) (i j : nat) :
  first_max row i → first_max row j → i = j.
Proof.
  intros (mi & Hi & Hlei & Hlti) (mj & Hj & Hlej & Hltj).
  destruct (Nat.lt_total i j) as [Hlt|[?|Hlt]]; [|done|]; exfalso.
  - pose proof (Hltj _ _ Hlt Hi). pose proof (Hlei _ _ Hj). lra.
  - pose proof (Hlti _ _ Hlt Hj). pose proof (Hlej _ _ Hi). lra.
Qed.

Lemma argmax_first_max (row : list num) (i : nat) :
  first_max row i → argmax row = Ok i.
Proof.
  intros Hi. destruct row as [|x l].
  - destruct Hi as (m & Hm & _). discriminate.
  - simpl. f_equal. eapply first_max_unique; [|exact Hi].
    apply (argmax_from_first_max l [x] x 0).
    + done.
    + intros j y Hj. apply list_lookup_singleton_Some in Hj as [_ <-].
      apply Qle_refl.
    + intros j y Hj. lia.
Qed.

Lemma argmax_Ok (row : list num) (i : nat) :
  argmax row = Ok i → first_max row i.
Proof.
  destruct row as [|x l]; [discriminate|]. intros [= <-].
  apply (argmax_from_first_max l [x] x 0).
  - done.
  - intros j y Hj. apply list_lookup_singleton_Some in Hj as [_ <-].
    apply Qle_refl.
  - intros j y Hj. lia.
Qed.

Lemma first_max_lt (row : list num) (i : nat) :
  first_max row i → i < length row.
Proof. intros (m & Hm & _). by eapply lookup_lt_Some. Qed.

(** The array built by [A = np.zeros_like(row); A[i] = 1.0]. *)
Lemma one_hot_insert (n i : nat) :
  i < n → one_hot n i (<[i := 1%Q]> (replicate n 0%Q)).
Proof.
  intros Hi. repeat split.
  - by rewrite length_insert, length_replicate.
  - apply list_lookup_insert_eq. by rewrite length_replicate.
  - intros j Hne Hj. rewrite list_lookup_insert_ne by done.
    by apply lookup_replicate_2.
Qed.

Lemma one_hot_first_max (n i : nat) (dist : list num) :
  one_hot n i dist → first_max dist i.
Proof.
  intros (Hlen & Hi & Hrest). exists 1%Q. split; [done|]. split.
  - intros j x Hj. destruct (decide (j = i)) as [->|Hne].
    + rewrite Hi in Hj. injection Hj as <-. apply Qle_refl.
    + rewrite Hrest in Hj; [injection Hj as <-; done | done |].
      apply lookup_lt_Some in Hj. lia.
  - intros j x Hlt Hj. rewrite Hrest in Hj; [injection Hj as <-; done | lia |].
    apply lookup_lt_Some in Hj. lia.
Qed.

(** ** The tables *)

Implicit Types (T Qt Ct : gmap State (list num)) (s : State) (a : nat).

Lemma getitem_present T s row :
  T !! s = Some row → getitem T s = (row, T).
Proof. intros E. unfold getitem. by rewrite E. Qed.

Lemma getitem_absent T s :
  T !! s = None → getitem T s = (zeros, <[s := zeros]> T).
Proof. intros E. unfold getitem. by rewrite E. Qed.

(** After [T[s]] the row is stored in the table. *)
Lemma getitem_lookup T s : (getitem T s).2 !! s = Some (getitem T s).1.
Proof.
  unfold getitem. destruct (T !! s) eqn:E; simpl; [done|].
  apply lookup_insert_eq.
Qed.

Lemma getitem_lookup_ne T s s' :
  s ≠ s' → (getitem T s).2 !! s' = T !! s'.
Proof.
  intros Hne. unfold getitem. destruct (T !! s) eqn:E; simpl; [done|].
  by apply lookup_insert_ne.
Qed.

Lemma cell_zeros a : default 0%Q (zeros !! a) = 0%Q.
Proof.
  unfold zeros. destruct (replicate nA 0%Q !! a) as [x|] eqn:E; [|done].
  by apply lookup_replicate_1 in E as [-> _].
Qed.

(** Lazy creation of a row changes no cell as a reader sees it. *)
Lemma getitem_cell T s s' a : cell (getitem T s).2 s' a = cell T s' a.
Proof.
  unfold cell. destruct (decide (s = s')) as [<-|Hne].
  - rewrite getitem_lookup. unfold getitem.
    destruct (T !! s) eqn:E; simpl; [done | apply cell_zeros].
  - by rewrite getitem_lookup_ne.
Qed.

Lemma getitem_wf T s :
  wf_table T →
  wf_table (getitem T s).2 ∧ length (getitem T s).1 = nA.
Proof.
  intros Hwf. unfold getitem. destruct (T !! s) eqn:E; simpl.
  - split; [done | by eapply Hwf].
  - split; [|apply length_replicate].
    intros s' row Hs'. destruct (decide (s = s')) as [<-|Hne].
    + rewrite lookup_insert_eq in Hs'. injection Hs' as <-.
      apply length_replicate.
    + rewrite lookup_insert_ne in Hs' by done. by eapply Hwf.
Qed.

Lemma getitem_idem T s :
  getitem (getitem T s).2 s = getitem T s.
Proof.
  rewrite (getitem_present _ s _ (getitem_lookup T s)).
  by destruct (getitem T s).
Qed.

(** [policy_fn] in terms of the row its two accesses see. *)
Lemma policy_fn_unfold Qt s :
  policy_fn Qt s =
    (best ← argmax (getitem Qt s).1;
     Ok (<[best := 1%Q]> (replicate (length (getitem Qt s).1) 0%Q),
         (getitem Qt s).2)).
Proof.
  unfold policy_fn.
  pose proof (getitem_idem Qt s) as Hidem.
  destruct (getitem Qt s) as [row Q1]; simpl in *.
  by rewrite Hidem.
Qed.

(** C3.  For every state and every row [Q[state]], the distribution the
    greedy target policy returns is one-hot at the index of the maximum of
    the row, the lowest such index when the maximum occurs more than once
    (first-maximum semantics); for the row [[0.2, 0.5, 0.5]] this is
    [[0, 1, 0]]. *)
Theorem greedy_policy_one_hot Qt s (row : list num) (i : nat) :
  (getitem Qt s).1 = row →
  first_max row i →
  ∃ dist, policy_fn Qt s = Ok (dist, (getitem Qt s).2)
          ∧ one_hot (length row) i dist.
Proof.
  intros Hrow Hmax. rewrite policy_fn_unfold, Hrow.
  rewrite (argmax_first_max _ _ Hmax). simpl.
  eexists. split; [reflexivity|].
  apply one_hot_insert. by apply first_max_lt.
Qed.

Lemma argmax_from_zeros (n i : nat) :
  argmax_from (replicate n 0%Q) i 0%Q 0 = 0.
Proof. revert i. induction n as [|n IH]; intros i; simpl; [done | apply IH]. Qed.

(** C10.  At a state whose row was never written, so that the row the
    policy sees is the lazily created all-zero row, the greedy target
    policy returns the one-hot distribution with 1.0 at action 0, when
    there is at least one action. *)
Theorem greedy_policy_unwritten Qt s :
  1 ≤ nA →
  Qt !! s = None ∨ Qt !! s = Some (zeros) →
  ∃ dist Qt', policy_fn Qt s = Ok (dist, Qt')
              ∧ dist = 1%Q :: replicate (nA - 1) 0%Q
              ∧ one_hot nA 0 dist.
Proof.
  intros HnA Hrow.
  assert (Hget : (getitem Qt s).1 = zeros).
  { destruct Hrow as [E|E].
    - by rewrite getitem_absent.
    - by rewrite (getitem_present _ _ _ E). }
  rewrite policy_fn_unfold, Hget. unfold zeros.
  rewrite length_replicate.
  destruct nA as [|n]; [lia|]. simpl.
  rewrite argmax_from_zeros. simpl. rewrite Nat.sub_0_r.
  eexists _, _. split; [reflexivity|]. split; [done|].
  apply (one_hot_insert (S n) 0). lia.
Qed.

(** C4, as the code has it.  Evaluating the greedy target policy at a
    state absent from [Q] stores an all-zero row for that state in [Q];
    at a state that is present [Q] is left as it was.  In both cases no
    other row changes and every cell reads as before. *)
Theorem greedy_policy_lazy_row Qt s (dist : list num) Qt' :
  policy_fn Qt s = Ok (dist, Qt') →
  (Qt !! s = None → Qt' = <[s := zeros]> Qt)
  ∧ (is_Some (Qt !! s) → Qt' = Qt)
  ∧ (∀ s', s' ≠ s → Qt' !! s' = Qt !! s')
  ∧ (∀ s' a, cell Qt' s' a = cell Qt s' a).
Proof.
  rewrite policy_fn_unfold. intros Hp.
  apply bind_Ok in Hp as (best & _ & [= _ <-]).
  split; [|split; [|split]].
  - intros E. by rewrite getitem_absent.
  - intros [row E]. by rewrite (getitem_present _ _ _ E).
  - intros s' Hne. by apply getitem_lookup_ne.
  - intros s' a. apply getitem_cell.
Qed.

(** ** Reading and updating a cell *)

Lemma getitem_cell_row T s a row T1 :
  getitem T s = (row, T1) → cell T s a = default 0%Q (row !! a).
Proof.
  intros E. rewrite <- (getitem_cell T s s a). unfold cell.
  rewrite getitem_lookup. by rewrite E.
Qed.

Lemma read_Ok T s a (x : num) T' :
  read T s a = Ok (x, T') → x = cell T s a ∧ T' = (getitem T s).2.
Proof.
  unfold read. destruct (getitem T s) as [row T1] eqn:E. intros Hr.
  apply bind_Ok in Hr as (y & Hy & [= <- <-]). apply index_Ok in Hy.
  rewrite (getitem_cell_row _ _ _ _ _ E), Hy. done.
Qed.

Lemma add_at_Ok T s a (w : num) T' :
  add_at T s a w = Ok T' →
  cell T' s a = (cell T s a + w)%Q
  ∧ (∀ s' a', (s', a') ≠ (s, a) → cell T' s' a' = cell T s' a')
  ∧ is_Some (T' !! s)
  ∧ (wf_table T → wf_table T').
Proof.
  unfold add_at. destruct (getitem T s) as [row T1] eqn:E. intros Ha.
  apply bind_Ok in Ha as (x & Hx & [= <-]). apply index_Ok in Hx.
  pose proof (getitem_lookup T s) as Hrow. rewrite E in Hrow; simpl in Hrow.
  split; [|split; [|split]].
  - rewrite (getitem_cell_row _ _ _ _ _ E), Hx. unfold cell.
    rewrite lookup_insert_eq, list_lookup_insert_eq; [done|].
    by eapply lookup_lt_Some.
  - intros s' a' Hne. destruct (decide (s' = s)) as [->|Hs].
    + rewrite (getitem_cell_row _ _ _ _ _ E). unfold cell.
      rewrite lookup_insert_eq, list_lookup_insert_ne; [done|congruence].
    + rewrite <- (getitem_cell T s s' a'), E. unfold cell; simpl.
      by rewrite lookup_insert_ne.
  - rewrite lookup_insert_eq. eauto.
  - intros Hwf. destruct (getitem_wf T s Hwf) as [Hwf1 Hlen].
    rewrite E in Hwf1, Hlen; simpl in *.
    intros s' row' Hs'. destruct (decide (s = s')) as [<-|Hs].
    + rewrite lookup_insert_eq in Hs'. injection Hs' as <-.
      by rewrite length_insert.
    + rewrite lookup_insert_ne in Hs' by done. by eapply Hwf1.
Qed.

(** With rows of the right length, an action below [nA] is in range. *)
Lemma add_at_in_range T s a (w : num) :
  wf_table T → a < nA → ∃ T', add_at T s a w = Ok T'.
Proof.
  intros Hwf Ha. unfold add_at.
  destruct (getitem_wf T s Hwf) as [_ Hlen].
  destruct (getitem T s) as [row T1]; simpl in *.
  destruct (index_lt row a) as (x & -> & _); [lia|]. simpl. eauto.
Qed.

Lemma read_in_range T s a :
  wf_table T → a < nA → read T s a = Ok (cell T s a, (getitem T s).2).
Proof.
  intros Hwf Ha. unfold read.
  destruct (getitem_wf T s Hwf) as [_ Hlen].
  destruct (getitem T s) as [row T1] eqn:E; simpl in *.
  destruct (index_lt row a) as (x & -> & Hx); [lia|]. simpl.
  by rewrite (getitem_cell_row _ _ _ _ _ E), Hx.
Qed.

Lemma getitem_is_Some T s : is_Some (T !! s) → (getitem T s).2 = T.
Proof. intros [row E]. by rewrite (getitem_present _ _ _ E). Qed.

(** ** One iteration *)

Lemma value_update_Ok t s a (r : num) st st1 :
  value_update t (s, a, r) st = Ok st1 →
  st_t st1 = t
  ∧ st_G st1 = (discount_factor * st_G st + r)%Q
  ∧ st_W st1 = st_W st
  ∧ cell (st_C st1) s a = (cell (st_C st) s a + st_W st)%Q
  ∧ ¬ (cell (st_C st1) s a == 0)%Q
  ∧ cell (st_Q st1) s a =
      (cell (st_Q st) s a
       + st_W st / cell (st_C st1) s a * (st_G st1 - cell (st_Q st) s a))%Q
  ∧ (∀ s' a', (s', a') ≠ (s, a) →
       cell (st_C st1) s' a' = cell (st_C st) s' a'
       ∧ cell (st_Q st1) s' a' = cell (st_Q st) s' a')
  ∧ is_Some (st_Q st1 !! s)
  ∧ (wf_table (st_C st) → wf_table (st_C st1))
  ∧ (wf_table (st_Q st) → wf_table (st_Q st1)).
Proof.
  unfold value_update. intros Hv.
  apply bind_Ok in Hv as (C1 & HC1 & Hv).
  apply bind_Ok in Hv as ([c C2] & Hc & Hv).
  apply bind_Ok in Hv as (ratio & Hratio & Hv).
  apply bind_Ok in Hv as ([q Q1] & Hq & Hv).
  apply bind_Ok in Hv as (Q2 & HQ2 & [= <-]). simpl.
  apply add_at_Ok in HC1 as (HC1 & HC1' & HC1s & HC1wf).
  apply read_Ok in Hc as [-> ->].
  rewrite (getitem_is_Some _ _ HC1s) in *.
  apply divide_inv in Hratio as [Hnz ->].
  apply read_Ok in Hq as [-> ->].
  apply add_at_Ok in HQ2 as (HQ2 & HQ2' & HQs & HQwf).
  rewrite getitem_cell in HQ2.
  repeat split; try done.
  - by apply HC1'.
  - rewrite HQ2' by done. apply getitem_cell.
  - intros Hwf. apply HQwf. by apply getitem_wf.
Qed.

Lemma argmax_one_hot (row : list num) (best : nat) :
  argmax row = Ok best →
  argmax (<[best := 1%Q]> (replicate (length row) 0%Q)) = Ok best.
Proof.
  intros Hb. apply argmax_Ok, first_max_lt in Hb.
  apply argmax_first_max, (one_hot_first_max (length row)).
  by apply one_hot_insert.
Qed.

(** The check compares the action with the first maximum of the row
    [Q[state]], and leaves [Q] as it is once the row exists. *)
Lemma policy_check_Ok s a (r : num) st1 st' (broke : bool) :
  is_Some (st_Q st1 !! s) →
  policy_check (s, a, r) st1 = Ok (st', broke) →
  st_t st' = st_t st1 ∧ st_G st' = st_G st1
  ∧ st_C st' = st_C st1 ∧ st_Q st' = st_Q st1
  ∧ (∃ best, argmax (getitem (st_Q st1) s).1 = Ok best
             ∧ (broke = true ↔ a ≠ best))
  ∧ (broke = true → st_W st' = st_W st1)
  ∧ (broke = false →
       ∃ bepol, behavior_policy s !! a = Some bepol
                ∧ ¬ (bepol == 0)%Q
                ∧ st_W st' = (st_W st1 * 1 / bepol)%Q).
Proof.
  intros Hs. unfold policy_check, target_policy.
  rewrite policy_fn_unfold, (getitem_is_Some _ _ Hs). intros Hp.
  apply bind_Ok in Hp as ([dist Q3] & Hd & Hp).
  apply bind_Ok in Hd as (b & Hb & [= <- <-]).
  rewrite (argmax_one_hot _ _ Hb) in Hp. simpl in Hp.
  destruct (decide (a ≠ b)) as [Hne|Heq].
  - injection Hp as <- <-. simpl. repeat split; try done.
    exists b. split; [done|]. tauto.
  - apply bind_Ok in Hp as (bepol & Hbe & Hp).
    apply bind_Ok in Hp as (W & HW & [= <- <-]). simpl.
    apply index_Ok in Hbe. apply divide_inv in HW as [Hnz ->].
    repeat split; try done.
    + exists b. split; [done|]. split; [done|]. intros ?. by destruct Heq.
    + intros _. eauto.
Qed.

Lemma backward_step_Ok t s a (r : num) st st' (broke : bool) :
  backward_step t (s, a, r) st = Ok (st', broke) →
  ∃ st1, value_update t (s, a, r) st = Ok st1
         ∧ policy_check (s, a, r) st1 = Ok (st', broke)
         ∧ is_Some (st_Q st1 !! s).
Proof.
  unfold backward_step. intros Hb.
  apply bind_Ok in Hb as (st1 & Hv & Hp). exists st1.
  repeat split; try done.
  by apply value_update_Ok in Hv as (_ & _ & _ & _ & _ & _ & _ & Hs & _).
Qed.

(** What an iteration leaves in the loop variables: [t], [G], and the one
    cell of [C] it has added [W] to. *)
Lemma backward_step_vars t s a (r : num) st st' (broke : bool) :
  backward_step t (s, a, r) st = Ok (st', broke) →
  st_t st' = t
  ∧ st_G st' = (discount_factor * st_G st + r)%Q
  ∧ cell (st_C st') s a = (cell (st_C st) s a + st_W st)%Q
  ∧ (∀ s' a', (s', a') ≠ (s, a) →
       cell (st_C st') s' a' = cell (st_C st) s' a').
Proof.
  intros Hb. apply backward_step_Ok in Hb as (st1 & Hv & Hp & Hs).
  apply value_update_Ok in Hv as (Ht & HG & _ & HC & _ & _ & Hrest & _).
  apply policy_check_Ok in Hp as (Ht' & HG' & HC' & _); [|done].
  rewrite Ht', HG', HC'. repeat split; try done.
  intros s' a' Hne. by apply Hrest.
Qed.

(** With rows of length [nA], an action below [nA] and a nonzero
    denominator, the updates of an iteration go through. *)
Lemma value_update_succeeds t s a (r : num) st :
  wf_table (st_C st) → wf_table (st_Q st) → a < nA →
  ¬ (cell (st_C st) s a + st_W st == 0)%Q →
  ∃ st1, value_update t (s, a, r) st = Ok st1.
Proof.
  intros HwfC HwfQ Ha Hnz. unfold value_update.
  destruct (add_at_in_range (st_C st) s a (st_W st) HwfC Ha) as [C1 HC1].
  rewrite HC1. simpl.
  apply add_at_Ok in HC1 as (Hc & _ & _ & HwfC1).
  rewrite (read_in_range C1 s a (HwfC1 HwfC) Ha). simpl.
  rewrite divide_Ok by (by rewrite Hc). simpl.
  rewrite (read_in_range (st_Q st) s a HwfQ Ha). simpl.
  destruct (add_at_in_range (getitem (st_Q st) s).2 s a
    (st_W st / cell C1 s a
     * (discount_factor * st_G st + r - cell (st_Q st) s a))%Q)
    as [Q2 HQ2]; [by apply getitem_wf | done |].
  rewrite HQ2. simpl. eauto.
Qed.

(** ** The reverse traversal *)

(** C1.  When, after the updates of [C] and [Q] for the entry at index
    [t], the recorded action differs from the argmax of the target policy
    at that state, evaluated on the updated [Q], the reverse traversal
    ends there: its result is the state right after these updates, with
    [t] still at that index, whatever the entries before [t] are.  Of
    the cells of [C] and [Q] only the pair (state, action) of this entry
    differs from what the iteration started with; when [t] is the latest
    step this is the one pair the whole pass updates. *)
Theorem mismatch_stops_traversal (episode : list entry) t s a (r : num)
    st st1 (dist : list num) Q3 (best : nat) :
  episode !! t = Some (s, a, r) →
  value_update t (s, a, r) st = Ok st1 →
  target_policy (st_Q st1) s = Ok (dist, Q3) →
  argmax dist = Ok best →
  a ≠ best →
  ∃ st', reverse_traversal episode (S t) st = Ok st'
    ∧ st_t st' = t ∧ st_G st' = st_G st1 ∧ st_W st' = st_W st
    ∧ st_C st' = st_C st1 ∧ st_Q st' = st_Q st1
    ∧ cell (st_C st') s a = (cell (st_C st) s a + st_W st)%Q
    ∧ (∀ s' a', (s', a') ≠ (s, a) →
         cell (st_C st') s' a' = cell (st_C st) s' a'
         ∧ cell (st_Q st') s' a' = cell (st_Q st) s' a').
Proof.
  intros Hx Hv Hpol Hbest Hne.
  assert (Hstep : backward_step t (s, a, r) st
                  = Ok (mkLoop (st_t st1) (st_G st1) (st_W st1) (st_C st1) Q3,
                        true)).
  { unfold backward_step. rewrite Hv. simpl. unfold policy_check.
    rewrite Hpol. simpl. rewrite Hbest. simpl.
    by rewrite decide_True by done. }
  exists (mkLoop (st_t st1) (st_G st1) (st_W st1) (st_C st1) Q3).
  split; [cbn [reverse_traversal]; unfold entry in *; by rewrite Hx, Hstep|].
  simpl.
  apply value_update_Ok in Hv
    as (Ht & _ & HW & HC & _ & _ & Hrest & Hs & _).
  unfold target_policy in Hpol. rewrite policy_fn_unfold in Hpol.
  apply bind_Ok in Hpol as (b & _ & [= _ <-]).
  rewrite (getitem_is_Some _ _ Hs). repeat split; try done.
  all: intros; by apply Hrest.
Qed.

(** The latest step of a trajectory, seen from [backward_pass]. *)
Lemma backward_pass_last (earlier : list entry) (x : entry) Ct Qt :
  backward_pass (earlier ++ [x]) Ct Qt =
    reverse_traversal (earlier ++ [x]) (S (length earlier))
      (fresh (length earlier) Ct Qt).
Proof.
  unfold backward_pass. rewrite length_app. simpl.
  by replace (length earlier + 1) with (S (length earlier)) by lia.
Qed.

(** C2.  An iteration with [W = 1] on a pair (state, action) whose cells
    of [C] and [Q] read 0, the action being in range, goes through,
    leaves 1 in the cell of [C], and leaves in the cell of [Q] exactly
    the return [G] computed in that iteration. *)
Theorem first_visit_update t s a (r : num) st :
  wf_table (st_C st) → wf_table (st_Q st) → a < nA →
  (st_W st == 1)%Q →
  (cell (st_C st) s a == 0)%Q →
  (cell (st_Q st) s a == 0)%Q →
  ∃ st1, value_update t (s, a, r) st = Ok st1
    ∧ st_G st1 = (discount_factor * st_G st + r)%Q
    ∧ (cell (st_C st1) s a == 1)%Q
    ∧ (cell (st_Q st1) s a == st_G st1)%Q.
Proof.
  intros HwfC HwfQ Ha HW HC HQ.
  destruct (value_update_succeeds t s a r st HwfC HwfQ Ha) as [st1 Hv].
  { rewrite HW, HC. done. }
  exists st1. split; [done|].
  apply value_update_Ok in Hv as (_ & HG & _ & HC1 & _ & HQ1 & _).
  assert (Hc : (cell (st_C st1) s a == 1)%Q) by (rewrite HC1, HW, HC; done).
  repeat split; [done | done |].
  rewrite HQ1, Hc, HW, HQ. field.
Qed.



(** ** Invariants of [C] and [W] *)

Lemma nonneg_empty : nonneg ∅.
Proof. intros s a. unfold cell. by rewrite lookup_empty. Qed.

Lemma backward_step_C_le t (x : entry) st st' (broke : bool) :
  nonneg (st_C st) → (0 <= st_W st)%Q →
  backward_step t x st = Ok (st', broke) →
  table_le (st_C st) (st_C st') ∧ nonneg (st_C st').
Proof.
  intros Hnn HW Hb. destruct x as [[s a] r].
  apply backward_step_vars in Hb as (_ & _ & HC & Hrest).
  assert (Hle : table_le (st_C st) (st_C st')).
  { intros s' a'. destruct (decide ((s', a') = (s, a))) as [[= -> ->]|Hne].
    - rewrite HC. lra.
    - rewrite Hrest by done. apply Qle_refl. }
  split; [done|]. intros s' a'.
  eapply Qle_trans; [apply Hnn | apply Hle].
Qed.


Lemma reach_policy_invariant st :
  reach policy_positive st → (0 < st_W st)%Q ∧ nonneg (st_C st).
Proof.
  induction 1 as [t|st t _ IH|st t x st' broke _ [IHW IHC] HP Hb]; simpl.
  - split; [done | apply nonneg_empty].
  - split; [done | apply IH].
  - split; [|eapply backward_step_C_le; [exact IHC | lra | exact Hb]].
    destruct x as [[s a] r].
    apply backward_step_Ok in Hb as (st1 & Hv & Hp & Hs).
    apply value_update_Ok in Hv as (_ & _ & HW1 & _).
    apply policy_check_Ok in Hp as (_ & _ & _ & _ & _ & Htrue & Hfalse);
      [|done].
    destruct broke.
    + rewrite Htrue, HW1; done.
    + destruct Hfalse as (bepol & Hbe & _ & ->); [done|].
      apply HP in Hbe. rewrite HW1.
      apply Qlt_shift_div_l; [done | lra].
Qed.

(** A run under a behavior policy that is positive on the actions taken
    is a run in which [W] is positive at every iteration. *)
Lemma reach_policy_weight st :
  reach policy_positive st → reach weight_positive st.
Proof.
  induction 1 as [t|st t _ IH|st t x st' broke Hr IH HP Hb].
  - apply reach_start.
  - by apply reach_episode.
  - eapply reach_step; [exact IH | | exact Hb].
    by apply reach_policy_invariant in Hr as [HW _].
Qed.





(** C6.  In a run under a behavior policy that gives every action taken a
    positive probability, every update step leaves each cell of [C] at
    least as large as it was, and leaves no cell of [C] negative.  The
    states of such a run range over the iterations of all its episodes,
    so this holds from one update to the next within an episode and from
    one episode to the next. *)
Theorem weight_accumulator_monotone t (x : entry) st st' (broke : bool) :
  reach policy_positive st →
  backward_step t x st = Ok (st', broke) →
  table_le (st_C st) (st_C st') ∧ nonneg (st_C st').
Proof.
  intros Hreach Hb.
  apply reach_policy_invariant in Hreach as [HW Hnn].
  eapply backward_step_C_le; [exact Hnn | lra | exact Hb].
Qed.

(** ** Episode generation *)

Lemma rollout_length n s w :
  length (rollout n s w).1.1 ≤ n
  ∧ ((rollout n s w).1.2 = false → length (rollout n s w).1.1 = n)
  ∧ ((rollout n s w).1.2 = true → 1 ≤ length (rollout n s w).1.1).
Proof.
  revert s w. induction n as [|n IH]; intros s w; simpl.
  - repeat split; [done | discriminate].
  - destruct (choice w (behavior_policy s)) as [action w1].
    destruct (step w1 action) as [[[next_state reward] done] w2].
    destruct done; simpl.
    + repeat split; [lia | discriminate | lia].
    + specialize (IH next_state w2).
      destruct (rollout n next_state w2) as [[episode broke] w3]; simpl in *.
      destruct IH as (Hle & Hfalse & Htrue).
      repeat split; [lia | intros E; by rewrite Hfalse | lia].
Qed.

(** When the environment reports [done] the entry is appended and the
    loop is left. *)
Lemma rollout_done n s w action w1 next_state (reward : num) w2 :
  choice w (behavior_policy s) = (action, w1) →
  step w1 action = (next_state, reward, true, w2) →
  rollout (S n) s w = ([(s, action, reward)], true, w2).
Proof. intros Hc Hs. simpl. by rewrite Hc, Hs. Qed.

(** Otherwise the entry is appended and the loop goes on from the next
    state with one iteration less. *)
Lemma rollout_continue n s w action w1 next_state (reward : num) w2 :
  choice w (behavior_policy s) = (action, w1) →
  step w1 action = (next_state, reward, false, w2) →
  rollout (S n) s w =
    ((s, action, reward) :: (rollout n next_state w2).1.1,
     (rollout n next_state w2).1.2, (rollout n next_state w2).2).
Proof.
  intros Hc Hs. simpl. rewrite Hc, Hs.
  by destruct (rollout n next_state w2) as [[episode broke] w3].
Qed.

Lemma rollout_interaction n s w :
  interaction s w (rollout n s w).1.1 (rollout n s w).1.2 (rollout n s w).2.
Proof.
  revert s w. induction n as [|n IH]; intros s w; simpl.
  - apply interaction_none.
  - destruct (choice w (behavior_policy s)) as [action w1] eqn:Hc.
    destruct (step w1 action) as [[[next_state reward] done] w2] eqn:Hs.
    destruct done; simpl.
    + by eapply interaction_last.
    + specialize (IH next_state w2).
      destruct (rollout n next_state w2) as [[episode broke] w3]; simpl in *.
      destruct episode as [|x episode].
      * inversion IH; subst. by eapply interaction_last.
      * by eapply interaction_more.
Qed.

(** The record of an interaction and the way the loop is left determine
    the trajectory: two trajectories recorded from the same state and
    world, each either ended by a step reported done or of [n] entries,
    and neither longer than [n], are the same. *)
Lemma interaction_unique n s w ep1 (d1 : bool) w1 ep2 (d2 : bool) w2 :
  interaction s w ep1 d1 w1 → interaction s w ep2 d2 w2 →
  length ep1 ≤ n → length ep2 ≤ n →
  (d1 = false → length ep1 = n) → (d2 = false → length ep2 = n) →
  ep1 = ep2 ∧ d1 = d2 ∧ w1 = w2.
Proof.
  intros H1. revert n ep2 d2 w2.
  induction H1 as [s w|s w a wa s' r d wb Hc Hs
                  |s w a wa s' r wb x ep d wc Hc Hs _ IH];
    intros n ep2 d2 w2 H2 Hl1 Hl2 Hd1 Hd2.
  - simpl in *. specialize (Hd1 eq_refl). subst n.
    destruct ep2; [|simpl in Hl2; lia]. by inversion H2.
  - inversion H2 as [| ? ? a' wa' s2 r' d' wb' Hc' Hs'
                     | ? ? a' wa' s2 r' wb' x' ep' d' wc' Hc' Hs' H'];
      subst; simpl in *.
    + specialize (Hd2 eq_refl). subst n. lia.
    + rewrite Hc in Hc'. injection Hc' as <- <-.
      rewrite Hs in Hs'. by injection Hs' as <- <- <- <-.
    + rewrite Hc in Hc'. injection Hc' as <- <-.
      rewrite Hs in Hs'. injection Hs' as <- <- -> <-.
      specialize (Hd1 eq_refl). lia.
  - inversion H2 as [| ? ? a' wa' s2 r' d' wb' Hc' Hs'
                     | ? ? a' wa' s2 r' wb' x' ep' d' wc' Hc' Hs' H'];
      subst; simpl in *.
    + specialize (Hd2 eq_refl). subst n. lia.
    + rewrite Hc in Hc'. injection Hc' as <- <-.
      rewrite Hs in Hs'. injection Hs' as <- <- <- <-.
      specialize (Hd2 eq_refl). lia.
    + rewrite Hc in Hc'. injection Hc' as <- <-.
      rewrite Hs in Hs'. injection Hs' as <- <- <-.
      destruct n as [|n]; [lia|].
      destruct (IH n _ _ _ H') as (E & -> & ->);
        [simpl; lia | simpl; lia
        | intros Hd; specialize (Hd1 Hd); simpl in *; lia
        | intros Hd; specialize (Hd2 Hd); simpl in *; lia |].
      by rewrite E.
Qed.

(** C8.  The episode generator always returns a trajectory.  Starting
    from the state of [env.reset], the trajectory has one entry for each
    step taken, in order: the state the step was taken in, the action
    drawn there from the behavior policy and the reward the environment
    returned; each step but the last was reported not done.  The loop
    is left through [break] exactly when the last step was reported
    done, that step's entry having been appended; otherwise the budget
    is used up and the trajectory has [MAX_STEP] entries.  It never has
    more than [MAX_STEP].  In both cases the trajectory is handed to the
    backward pass. *)
Theorem episode_generation_bounded w Ct Qt :
  interaction (reset w).1 (reset w).2
    (generate_episode w).1.1 (generate_episode w).1.2 (generate_episode w).2
  ∧ length (generate_episode w).1.1 ≤ MAX_STEP
  ∧ ((generate_episode w).1.2 = false →
       length (generate_episode w).1.1 = MAX_STEP)
  ∧ ((generate_episode w).1.2 = true →
       1 ≤ length (generate_episode w).1.1)
  ∧ run_episode w Ct Qt =
      (st ← backward_pass (generate_episode w).1.1 Ct Qt;
       Ok (st_C st, st_Q st, (generate_episode w).2)).
Proof.
  unfold run_episode, generate_episode.
  destruct (reset w) as [state w1]. cbn [fst snd].
  pose proof (rollout_interaction MAX_STEP state w1) as Hint.
  pose proof (rollout_length MAX_STEP state w1) as (Hle & Hfalse & Htrue).
  destruct (rollout MAX_STEP state w1) as [[episode broke] w2];
    cbn [fst snd] in *.
  split; [exact Hint|]. split; [exact Hle|]. split; [exact Hfalse|].
  split; [exact Htrue | reflexivity].
Qed.

(** ** A whole run stays within [reach] *)

Lemma rollout_taken_positive n s w :
  choice_positive → Forall taken_positive (rollout n s w).1.1.
Proof.
  intros Hch. revert s w. induction n as [|n IH]; intros s w; simpl.
  - constructor.
  - pose proof (Hch w (behavior_policy s)) as Hpos.
    destruct (choice w (behavior_policy s)) as [action w1]; simpl in Hpos.
    destruct (step w1 action) as [[[next_state reward] done] w2].
    assert (Hx : taken_positive (s, action, reward)) by (intros p; apply Hpos).
    destruct done; simpl.
    + by repeat constructor.
    + specialize (IH next_state w2).
      destruct (rollout n next_state w2) as [[episode broke] w3]; simpl in *.
      by constructor.
Qed.

Lemma reverse_traversal_reach (episode : list entry) n st st' :
  Forall taken_positive episode →
  reach policy_positive st →
  reverse_traversal episode n st = Ok st' →
  reach policy_positive st'.
Proof.
  intros Hep. revert st. induction n as [|t IH]; intros st Hreach; simpl.
  - by intros [= <-].
  - destruct (episode !! t) as [x|] eqn:Hx; [|discriminate].
    intros Hb. apply bind_Ok in Hb as ([st1 broke] & Hstep & Hb).
    assert (reach policy_positive st1).
    { eapply reach_step; [exact Hreach | | exact Hstep].
      eapply Forall_lookup_1; [exact Hep | exact Hx]. }
    destruct broke; [by injection Hb as <- | by eapply IH].
Qed.

Lemma episodes_reach n w Ct Qt Ct' Qt' w' st :
  choice_positive →
  reach policy_positive st → st_C st = Ct → st_Q st = Qt →
  episodes n w Ct Qt = Ok (Ct', Qt', w') →
  ∃ st', reach policy_positive st' ∧ st_C st' = Ct' ∧ st_Q st' = Qt'.
Proof.
  intros Hch. revert w Ct Qt st.
  induction n as [|n IH]; intros w Ct Qt st Hreach HC HQ; simpl.
  - intros [= <- <- <-]. eauto.
  - intros He. apply bind_Ok in He as ([[Ct1 Qt1] w1] & Hrun & He).
    unfold run_episode, generate_episode in Hrun.
    destruct (reset w) as [state w0].
    pose proof (rollout_taken_positive MAX_STEP state w0 Hch) as Hpos.
    destruct (rollout MAX_STEP state w0) as [[episode broke] w2];
      simpl in Hpos.
    apply bind_Ok in Hrun as (st1 & Hpass & [= <- <- <-]).
    eapply (IH _ _ _ st1); [|done|done|exact He].
    eapply reverse_traversal_reach; [exact Hpos| |exact Hpass].
    rewrite <- HC, <- HQ. by apply reach_episode.
Qed.

(** The accumulators at the end of a run of [n] episodes. *)
Lemma episodes_nonneg n w Ct' Qt' w' :
  choice_positive →
  episodes n w ∅ ∅ = Ok (Ct', Qt', w') →
  nonneg Ct'.
Proof.
  intros Hch He.
  destruct (episodes_reach n w ∅ ∅ Ct' Qt' w' (fresh 0 ∅ ∅) Hch)
    as (st' & Hreach & <- & _); [apply reach_start|done..|].
  by apply reach_policy_invariant in Hreach as [_ Hnn].
Qed.

(** ** The behavior policy *)

Lemma total_replicate n (x : num) :
  (total (replicate n x) == inject_Z (Z.of_nat n) * x)%Q.
Proof.
  induction n as [|n IH].
  - simpl. ring.
  - cbn [replicate total foldr]. fold (total (replicate n x)).
    rewrite IH, Nat2Z.inj_succ. unfold Z.succ. rewrite inject_Z_plus. ring.
Qed.

(** C9.  With [nA >= 1] actions, the behavior policy returns, for every
    state, the same list of [nA] entries, each equal to [1/nA]: the
    uniform distribution, whose entries are positive and sum to 1.  It is
    a function of the state alone, and not even of the state. *)
Theorem random_policy_uniform (s : State) :
  1 ≤ nA →
  create_random_policy s = replicate nA (1 / inject_Z (Z.of_nat nA))%Q
  ∧ length (create_random_policy s) = nA
  ∧ (∀ i, i < nA →
       create_random_policy s !! i = Some (1 / inject_Z (Z.of_nat nA))%Q)
  ∧ (∀ s', create_random_policy s' = create_random_policy s)
  ∧ (0 < 1 / inject_Z (Z.of_nat nA))%Q
  ∧ (total (create_random_policy s) == 1)%Q.
Proof.
  intros HnA. unfold create_random_policy. rewrite fmap_replicate.
  assert (Hpos : (0 < inject_Z (Z.of_nat nA))%Q).
  { change 0%Q with (inject_Z 0). rewrite <- Zlt_Qlt. lia. }
  repeat split.
  - apply length_replicate.
  - intros i Hi. by apply lookup_replicate_2.
  - apply Qlt_shift_div_l; [done | lra].
  - rewrite total_replicate. field. lra.
Qed.



(** * Further properties of the code *)

(** ** The greedy policy as a function of the table *)

Lemma total_cons (x : num) (l : list num) : total (x :: l) = (x + total l)%Q.
Proof. reflexivity. Qed.

Lemma total_one_hot (n i : nat) :
  i < n → (total (<[i := 1%Q]> (replicate n 0%Q)) == 1)%Q.
Proof.
  revert i. induction n as [|n IH]; intros i Hi; [lia|].
  destruct i as [|i].
  - change (<[0 := 1%Q]> (replicate (S n) 0%Q))
      with (1%Q :: replicate n 0%Q).
    rewrite total_cons, total_replicate. ring.
  - change (<[S i := 1%Q]> (replicate (S n) 0%Q))
      with (0%Q :: <[i := 1%Q]> (replicate n 0%Q)).
    rewrite total_cons, IH by lia. ring.
Qed.

(** X1.  What the greedy policy returns is a probability distribution over
    the cells of the row it read: as many entries as the row, each of
    them 0 or 1, summing to 1. *)
Theorem greedy_policy_distribution Qt s (dist : list num) Qt' :
  policy_fn Qt s = Ok (dist, Qt') →
  length dist = length (getitem Qt s).1
  ∧ (∀ i p, dist !! i = Some p → p = 0%Q ∨ p = 1%Q)
  ∧ (total dist == 1)%Q.
Proof.
  rewrite policy_fn_unfold. intros Hp.
  apply bind_Ok in Hp as (best & Hbest & [= <- _]).
  apply argmax_Ok, first_max_lt in Hbest.
  split; [by rewrite length_insert, length_replicate|]. split.
  - intros i p Hi. destruct (decide (i = best)) as [->|Hne].
    + rewrite list_lookup_insert_eq in Hi
        by (by rewrite length_replicate).
      right. congruence.
    + rewrite list_lookup_insert_ne in Hi by done.
      apply lookup_replicate_1 in Hi as [-> _]. by left.
  - by apply total_one_hot.
Qed.

(** X2.  The greedy policy fails only on an empty row, where [np.argmax]
    raises [ValueError]; on a row with at least one cell it returns. *)
Theorem greedy_policy_error Qt s (e : error) :
  policy_fn Qt s = Err e ↔ (getitem Qt s).1 = [] ∧ e = ValueError.
Proof.
  rewrite policy_fn_unfold.
  destruct (getitem Qt s).1 as [|x row]; simpl.
  - split; [intros [= <-]; done | intros [_ ->]; done].
  - split; [discriminate | intros [? _]; discriminate].
Qed.

(** X3.  Evaluating the greedy policy a second time gives the same
    distribution and leaves the table as the first evaluation left it. *)
Theorem greedy_policy_idempotent Qt s (dist : list num) Qt' :
  policy_fn Qt s = Ok (dist, Qt') →
  policy_fn Qt' s = Ok (dist, Qt').
Proof.
  intros Hp. pose proof Hp as Hp'. rewrite policy_fn_unfold in Hp'.
  apply bind_Ok in Hp' as (best & _ & [= _ <-]).
  rewrite policy_fn_unfold, getitem_idem.
  by rewrite policy_fn_unfold in Hp.
Qed.

(** X4.  On a table whose rows have [nA >= 1] cells the greedy policy is
    defined at every state, stored or not: it returns the one-hot
    distribution at the first maximum of the row. *)
Theorem greedy_policy_total Qt s :
  1 ≤ nA → wf_table Qt →
  ∃ i dist, i < nA
    ∧ first_max (getitem Qt s).1 i
    ∧ policy_fn Qt s = Ok (dist, (getitem Qt s).2)
    ∧ one_hot nA i dist.
Proof.
  intros HnA Hwf. destruct (getitem_wf Qt s Hwf) as [_ Hlen].
  rewrite policy_fn_unfold, Hlen.
  destruct (argmax (getitem Qt s).1) as [i|e] eqn:Hi.
  - pose proof (argmax_Ok _ _ Hi) as Hmax.
    pose proof (first_max_lt _ _ Hmax) as Hlt. rewrite Hlen in Hlt.
    exists i. eexists. split; [done|]. split; [done|].
    split; [reflexivity|]. by apply one_hot_insert.
  - destruct (getitem Qt s).1; [simpl in Hlen; lia | discriminate].
Qed.

(** ** Reading back a cell that was added to *)

(** X5.  After [T[state][action] += w] has gone through, reading
    [T[state][action]] gives the value read before plus [w], and the
    read leaves the table as it is. *)
Theorem add_then_read T s a (w : num) T' :
  add_at T s a w = Ok T' →
  read T' s a = Ok ((cell T s a + w)%Q, T').
Proof.
  intros Ha. pose proof (add_at_Ok _ _ _ _ _ Ha) as (Hc & _ & [row Hrow] & _).
  unfold read. rewrite (getitem_present _ _ _ Hrow).
  unfold cell in Hc. rewrite Hrow in Hc.
  unfold add_at in Ha. destruct (getitem T s) as [row0 T1].
  apply bind_Ok in Ha as (x & Hx & [= <-]). apply index_Ok in Hx.
  rewrite lookup_insert_eq in Hrow. injection Hrow as <-.
  destruct (index_lt (<[a := (x + w)%Q]> row0) a) as (y & -> & Hy).
  { rewrite length_insert. by eapply lookup_lt_Some. }
  simpl. rewrite Hy in Hc. simpl in Hc. by rewrite Hc.
Qed.

(** ** Errors of an iteration *)

(** X6.  With rows of [nA] cells in [C], an entry whose action is [nA] or
    more is out of range for the increment [C[state][action] += W]: the
    increment fails with [IndexError], and with it the update and the
    iteration, whatever [Q], [G] and [W] hold. *)
Theorem value_update_out_of_range t s a (r : num) st :
  wf_table (st_C st) → nA ≤ a →
  add_at (st_C st) s a (st_W st) = Err IndexError
  ∧ value_update t (s, a, r) st = Err IndexError
  ∧ backward_step t (s, a, r) st = Err IndexError.
Proof.
  intros Hwf Ha.
  assert (Hadd : add_at (st_C st) s a (st_W st) = Err IndexError).
  { unfold add_at. destruct (getitem_wf (st_C st) s Hwf) as [_ Hlen].
    destruct (getitem (st_C st) s) as [row T1]; simpl in *.
    unfold index. by rewrite lookup_ge_None_2 by lia. }
  assert (Hv : value_update t (s, a, r) st = Err IndexError).
  { unfold value_update. by rewrite Hadd. }
  repeat split; [done | done |].
  unfold backward_step. by rewrite Hv.
Qed.

(** X7.  When the recorded action is the greedy one after the update, the
    iteration does not leave the loop and goes on to
    [W = W * 1./bepol]: it fails with [IndexError] when the behavior
    policy has no entry for the action, and with a nonzero entry it
    continues with [W * 1 / bepol] and everything else as the update
    left it. *)
Theorem matched_action_weight t s a (r : num) st st1 :
  value_update t (s, a, r) st = Ok st1 →
  argmax (getitem (st_Q st1) s).1 = Ok a →
  (behavior_policy s !! a = None →
     backward_step t (s, a, r) st = Err IndexError)
  ∧ (∀ p, behavior_policy s !! a = Some p → ¬ (p == 0)%Q →
       backward_step t (s, a, r) st
       = Ok (mkLoop (st_t st1) (st_G st1) (st_W st1 * 1 / p)%Q
               (st_C st1) (st_Q st1), false)).
Proof.
  intros Hv Hbest.
  pose proof (value_update_Ok _ _ _ _ _ _ Hv)
    as (_ & _ & _ & _ & _ & _ & _ & Hs & _).
  assert (Hstep : backward_step t (s, a, r) st =
            (bepol ← index (behavior_policy s) a;
             W ← divide (st_W st1 * 1)%Q bepol;
             Ok (mkLoop (st_t st1) (st_G st1) W (st_C st1) (st_Q st1),
                 false))).
  { unfold backward_step. rewrite Hv. simpl.
    unfold policy_check, target_policy. rewrite policy_fn_unfold.
    rewrite (getitem_is_Some _ _ Hs) in *. rewrite Hbest. simpl.
    rewrite (argmax_one_hot _ _ Hbest). simpl.
    by rewrite decide_False by (intros Hne; by apply Hne). }
  rewrite Hstep. unfold index. split.
  - by intros ->.
  - intros p -> Hp. simpl. by rewrite divide_Ok.
Qed.


(** ** The consistency check *)

(** X10.  The evaluation of the target policy inside an iteration changes
    neither [Q] nor [C], nor [G] and [t]: what an iteration leaves in
    the tables is what the value update wrote. *)
Theorem check_keeps_tables t s a (r : num) st st' (broke : bool) :
  backward_step t (s, a, r) st = Ok (st', broke) →
  ∃ st1, value_update t (s, a, r) st = Ok st1
    ∧ st_Q st' = st_Q st1 ∧ st_C st' = st_C st1
    ∧ st_G st' = st_G st1 ∧ st_t st' = t.
Proof.
  intros Hb. apply backward_step_Ok in Hb as (st1 & Hv & Hp & Hs).
  exists st1. split; [done|].
  apply policy_check_Ok in Hp as (Ht & HG & HC & HQ & _); [|done].
  apply value_update_Ok in Hv as (Ht1 & _).
  repeat split; congruence.
Qed.

(** X11.  When a traversal ends at an index above 0, it was left through
    [break]: the action recorded at that index is not the greedy action
    of the final [Q] at the state recorded there. *)
Theorem traversal_break_reason (episode : list entry) n st st' :
  reverse_traversal episode n st = Ok st' →
  0 < n → 0 < st_t st' →
  ∃ s a (r : num) best,
    episode !! st_t st' = Some (s, a, r)
    ∧ argmax (getitem (st_Q st') s).1 = Ok best
    ∧ a ≠ best.
Proof.
  revert st. induction n as [|t IH]; intros st Htr Hn Ht'; [lia|].
  cbn [reverse_traversal] in Htr.
  destruct (episode !! t) as [[[s a] r]|] eqn:Hx; [|discriminate].
  apply bind_Ok in Htr as ([st1 broke] & Hstep & Htr).
  pose proof (backward_step_vars _ _ _ _ _ _ _ Hstep) as (Ht1 & _).
  destruct broke.
  - injection Htr as <-. rewrite Ht1.
    apply backward_step_Ok in Hstep as (st0 & _ & Hp & Hs).
    apply policy_check_Ok in Hp
      as (_ & _ & _ & HQ & (best & Hbest & Hbrk) & _); [|done].
    exists s, a, r, best. rewrite HQ. repeat split; [done | done |].
    by apply Hbrk.
  - destruct t as [|t].
    + injection Htr as <-. lia.
    + eapply IH; [exact Htr | lia | done].
Qed.

(** ** The return accumulated by the traversal *)

Lemma discounted_return_app (G0 : num) (l1 l2 : list num) :
  discounted_return G0 (l1 ++ l2)
  = discounted_return (discounted_return G0 l2) l1.
Proof. induction l1 as [|r l1 IH]; simpl; [done | by rewrite IH]. Qed.

Lemma traversal_return (episode : list entry) n st st' :
  reverse_traversal episode n st = Ok st' →
  0 < n →
  st_t st' < n
  ∧ st_G st' = discounted_return (st_G st)
      (rewards (take (n - st_t st') (drop (st_t st') episode))).
Proof.
  revert st. induction n as [|t IH]; intros st Htr Hn; [lia|].
  cbn [reverse_traversal] in Htr.
  destruct (episode !! t) as [[[s a] r]|] eqn:Hx; [|discriminate].
  apply bind_Ok in Htr as ([st1 broke] & Hstep & Htr).
  pose proof (backward_step_vars _ _ _ _ _ _ _ Hstep) as (Ht1 & HG1 & _).
  assert (Hone : st_t st1 < S t
    ∧ st_G st1 = discounted_return (st_G st)
        (rewards (take (S t - st_t st1) (drop (st_t st1) episode)))).
  { rewrite Ht1. split; [lia|].
    replace (S t - t) with 1 by lia.
    by rewrite (drop_S _ _ _ Hx). }
  destruct broke; [by injection Htr as <-|].
  destruct t as [|t]; [by injection Htr as <-|].
  destruct (IH st1 Htr) as [Hlt HG]; [lia|].
  split; [lia|]. rewrite HG, HG1.
  assert (Hk : drop (st_t st') episode !! (S t - st_t st') = Some (s, a, r)).
  { rewrite lookup_drop. by replace (st_t st' + (S t - st_t st')) with (S t)
      by lia. }
  replace (S (S t) - st_t st') with (S (S t - st_t st')) by lia.
  unfold rewards, entry in *. rewrite (take_S_r _ _ _ Hk).
  rewrite fmap_app, discounted_return_app. reflexivity.
Qed.

(** X12.  At the end of a backward pass over a non-empty trajectory, [G] is the
    discounted return of the rewards from the index where the traversal
    ended to the end of the trajectory. *)
Theorem backward_pass_return (episode : list entry) Ct Qt st' :
  episode ≠ [] →
  backward_pass episode Ct Qt = Ok st' →
  st_t st' < length episode
  ∧ st_G st' = discounted_return 0%Q (rewards (drop (st_t st') episode)).
Proof.
  intros Hne Hpass. unfold backward_pass in Hpass.
  apply traversal_return in Hpass as [Hlt HG];
    [|destruct episode; [done | simpl; lia]].
  split; [done|]. rewrite HG. simpl.
  by rewrite take_ge by (rewrite length_drop; lia).
Qed.


(** ** The shape of the tables *)

Lemma getitem_dom T s : dom (getitem T s).2 = {[s]} ∪ dom T.
Proof.
  unfold getitem. destruct (T !! s) eqn:E; simpl.
  - apply elem_of_dom_2 in E. symmetry. apply subseteq_union_1_L.
    by apply singleton_subseteq_l.
  - apply dom_insert_L.
Qed.

Lemma add_at_dom T s a (w : num) T' :
  add_at T s a w = Ok T' → dom T' = {[s]} ∪ dom T.
Proof.
  unfold add_at. pose proof (getitem_dom T s) as Hd.
  destruct (getitem T s) as [row T1]; simpl in Hd. intros Ha.
  apply bind_Ok in Ha as (x & _ & [= <-]).
  rewrite dom_insert_L, Hd. by rewrite (assoc_L (∪)), (idemp_L (∪)).
Qed.

Lemma value_update_dom t s a (r : num) st st1 :
  value_update t (s, a, r) st = Ok st1 →
  dom (st_C st1) = {[s]} ∪ dom (st_C st)
  ∧ dom (st_Q st1) = {[s]} ∪ dom (st_Q st).
Proof.
  unfold value_update. intros Hv.
  apply bind_Ok in Hv as (C1 & HC1 & Hv).
  apply bind_Ok in Hv as ([c C2] & Hc & Hv).
  apply bind_Ok in Hv as (ratio & _ & Hv).
  apply bind_Ok in Hv as ([q Q1] & Hq & Hv).
  apply bind_Ok in Hv as (Q2 & HQ2 & [= <-]). simpl.
  apply add_at_dom in HC1. apply read_Ok in Hc as [_ ->].
  apply read_Ok in Hq as [_ ->]. apply add_at_dom in HQ2.
  rewrite !getitem_dom. rewrite HC1, HQ2, getitem_dom.
  by rewrite !(assoc_L (∪)), !(idemp_L (∪)).
Qed.

Lemma backward_step_shape t (x : entry) st st' (broke : bool) :
  backward_step t x st = Ok (st', broke) →
  wf_table (st_C st) ∧ wf_table (st_Q st) ∧ dom (st_C st) = dom (st_Q st) →
  wf_table (st_C st') ∧ wf_table (st_Q st')
  ∧ dom (st_C st') = dom (st_Q st').
Proof.
  destruct x as [[s a] r]. intros Hb (HwfC & HwfQ & Hdom).
  apply backward_step_Ok in Hb as (st1 & Hv & Hp & Hs).
  apply policy_check_Ok in Hp as (_ & _ & -> & -> & _); [|done].
  pose proof (value_update_dom _ _ _ _ _ _ Hv) as [HdC HdQ].
  apply value_update_Ok in Hv as (_ & _ & _ & _ & _ & _ & _ & _ & HC & HQ).
  repeat split; [by apply HC | by apply HQ |]. by rewrite HdC, HdQ, Hdom.
Qed.

Lemma traversal_shape (episode : list entry) n st st' :
  reverse_traversal episode n st = Ok st' →
  wf_table (st_C st) ∧ wf_table (st_Q st) ∧ dom (st_C st) = dom (st_Q st) →
  wf_table (st_C st') ∧ wf_table (st_Q st')
  ∧ dom (st_C st') = dom (st_Q st').
Proof.
  revert st. induction n as [|t IH]; intros st Htr Hsh.
  - by injection Htr as <-.
  - cbn [reverse_traversal] in Htr.
    destruct (episode !! t) as [x|]; [|discriminate].
    apply bind_Ok in Htr as ([st1 broke] & Hstep & Htr).
    pose proof (backward_step_shape _ _ _ _ _ Hstep Hsh) as Hsh1.
    destruct broke; [by injection Htr as <- | by eapply IH].
Qed.

Lemma episodes_shape n w Ct Qt Ct' Qt' w' :
  episodes n w Ct Qt = Ok (Ct', Qt', w') →
  wf_table Ct ∧ wf_table Qt ∧ dom Ct = dom Qt →
  wf_table Ct' ∧ wf_table Qt' ∧ dom Ct' = dom Qt'.
Proof.
  revert w Ct Qt. induction n as [|n IH]; intros w Ct Qt He Hsh; simpl in He.
  - by injection He as <- <- <-.
  - apply bind_Ok in He as ([[Ct1 Qt1] w1] & Hrun & He).
    eapply IH; [exact He|].
    unfold run_episode in Hrun.
    destruct (generate_episode w) as [[episode broke] w2].
    apply bind_Ok in Hrun as (st1 & Hpass & [= <- <- <-]).
    unfold backward_pass in Hpass. by eapply traversal_shape in Hpass.
Qed.

(** X14.  After any number of episodes from empty tables, every row of [C]
    and of [Q] has [nA] cells, and [C] and [Q] hold rows for the same
    states. *)
Theorem trained_tables_shape n w Ct' Qt' w' :
  episodes n w ∅ ∅ = Ok (Ct', Qt', w') →
  wf_table Ct' ∧ wf_table Qt' ∧ dom Ct' = dom Qt'.
Proof.
  intros He. eapply episodes_shape; [exact He|].
  repeat split; intros s row Hs; by rewrite lookup_empty in Hs.
Qed.

(** ** Runs that cannot fail *)

Lemma backward_step_weight_pos t (x : entry) st st' (broke : bool) :
  (0 < st_W st)%Q → taken_positive x →
  backward_step t x st = Ok (st', broke) →
  (0 < st_W st')%Q.
Proof.
  destruct x as [[s a] r]. intros HW HP Hb.
  apply backward_step_Ok in Hb as (st1 & Hv & Hp & Hs).
  apply value_update_Ok in Hv as (_ & _ & HW1 & _).
  apply policy_check_Ok in Hp as (_ & _ & _ & _ & _ & Htrue & Hfalse);
    [|done].
  destruct broke.
  - rewrite Htrue, HW1; done.
  - destruct Hfalse as (bepol & Hbe & _ & ->); [done|].
    apply HP in Hbe. rewrite HW1.
    apply Qlt_shift_div_l; [done | lra].
Qed.

Lemma backward_step_table_le t (x : entry) st st' (broke : bool) :
  (0 <= st_W st)%Q →
  backward_step t x st = Ok (st', broke) →
  table_le (st_C st) (st_C st').
Proof.
  destruct x as [[s a] r]. intros HW Hb.
  apply backward_step_vars in Hb as (_ & _ & HC & Hrest).
  intros s' a'. destruct (decide ((s', a') = (s, a))) as [[= -> ->]|Hne].
  - rewrite HC. lra.
  - rewrite Hrest by done. apply Qle_refl.
Qed.

Lemma backward_step_succeeds t (x : entry) st :
  policy_sized → valid_entry x → loop_invariant st →
  ∃ st' (broke : bool),
    backward_step t x st = Ok (st', broke) ∧ loop_invariant st'.
Proof.
  destruct x as [[s a] r]. intros Hsz [Ha HP] (HwfC & HwfQ & Hnn & HW).
  simpl in Ha.
  destruct (value_update_succeeds t s a r st HwfC HwfQ Ha) as [st1 Hv].
  { pose proof (Hnn s a). lra. }
  pose proof (value_update_Ok _ _ _ _ _ _ Hv)
    as (_ & _ & HW1 & _ & _ & _ & _ & Hs & HwfC1 & HwfQ1).
  assert (Hstep : ∃ st' (broke : bool),
            backward_step t (s, a, r) st = Ok (st', broke)).
  { unfold backward_step. rewrite Hv. simpl.
    unfold policy_check, target_policy. rewrite policy_fn_unfold.
    rewrite (getitem_is_Some _ _ Hs).
    destruct (getitem_wf (st_Q st1) s (HwfQ1 HwfQ)) as [_ Hlen].
    destruct (argmax (getitem (st_Q st1) s).1) as [best|e] eqn:Hbest;
      [|destruct (getitem (st_Q st1) s).1; [simpl in Hlen; lia|discriminate]].
    simpl. rewrite (argmax_one_hot _ _ Hbest). simpl.
    destruct (decide (a ≠ best)); [eauto|].
    destruct (index_lt (behavior_policy s) a) as (p & -> & Hp);
      [rewrite Hsz; lia|].
    simpl. apply HP in Hp. rewrite divide_Ok by lra. simpl. eauto. }
  destruct Hstep as (st' & broke & Hstep). exists st', broke.
  split; [done|].
  pose proof (backward_step_shape _ _ _ _ _ Hstep) as Hsh.
  pose proof (check_shape := backward_step_Ok _ _ _ _ _ _ _ Hstep).
  destruct check_shape as (st0 & Hv0 & Hp0 & Hs0).
  rewrite Hv in Hv0. injection Hv0 as <-.
  apply policy_check_Ok in Hp0 as (_ & _ & HC' & HQ' & _); [|done].
  repeat split.
  - rewrite HC'. by apply HwfC1.
  - rewrite HQ'. by apply HwfQ1.
  - eapply backward_step_C_le; [exact Hnn | lra | exact Hstep].
  - eapply backward_step_weight_pos; [exact HW | exact HP | exact Hstep].
Qed.

Lemma traversal_succeeds (episode : list entry) n st :
  policy_sized → Forall valid_entry episode → n ≤ length episode →
  loop_invariant st →
  ∃ st', reverse_traversal episode n st = Ok st' ∧ loop_invariant st'.
Proof.
  intros Hsz Hep. revert st. induction n as [|t IH]; intros st Hn Hinv.
  - exists st. by split.
  - cbn [reverse_traversal].
    destruct (lookup_lt_is_Some_2 episode t) as [x Hx]; [lia|].
    unfold entry in *. rewrite Hx.
    destruct (backward_step_succeeds t x st Hsz) as (st1 & broke & -> & Hinv1);
      [by eapply Forall_lookup_1 | done |].
    simpl. destruct broke; [eauto|]. apply IH; [lia | done].
Qed.

(** X15.  A trajectory whose actions are indices of the rows and have a
    positive probability under a behavior policy of [nA] entries is
    processed without error from any tables with rows of [nA] cells and
    no negative accumulator; the tables it leaves are of that kind
    again. *)
Theorem backward_pass_succeeds (episode : list entry) Ct Qt :
  policy_sized → Forall valid_entry episode →
  wf_table Ct → wf_table Qt → nonneg Ct →
  ∃ st', backward_pass episode Ct Qt = Ok st'
    ∧ wf_table (st_C st') ∧ wf_table (st_Q st') ∧ nonneg (st_C st').
Proof.
  intros Hsz Hep HwfC HwfQ Hnn. unfold backward_pass.
  destruct (traversal_succeeds episode (length episode)
              (fresh (length episode - 1) Ct Qt) Hsz Hep)
    as (st' & Htr & HC & HQ & Hnn' & _); [lia | by repeat split |].
  exists st'. by repeat split.
Qed.

Lemma rollout_valid n s w :
  policy_sized → drawn_in_range → drawn_positive →
  Forall valid_entry (rollout n s w).1.1.
Proof.
  intros Hsz Hrange Hpos. revert s w.
  induction n as [|n IH]; intros s w; simpl; [constructor|].
  pose proof (Hrange w s) as Hr. pose proof (Hpos w s) as Hp.
  destruct (choice w (behavior_policy s)) as [action w1]; simpl in Hr, Hp.
  destruct (step w1 action) as [[[next_state reward] done] w2].
  assert (Hx : valid_entry (s, action, reward)).
  { split; [simpl; by rewrite <- (Hsz s) | exact Hp]. }
  destruct done; simpl; [constructor; [exact Hx | constructor]|].
  specialize (IH next_state w2).
  destruct (rollout n next_state w2) as [[episode broke] w3]; simpl in *.
  by constructor.
Qed.

(** X16.  The generated actions are indices of the rows whenever the draws
    are indices of the distributions drawn from. *)
Theorem generated_actions_in_range w :
  policy_sized → drawn_in_range →
  Forall (λ x : entry, x.1.2 < nA) (generate_episode w).1.1.
Proof.
  intros Hsz Hrange. unfold generate_episode.
  destruct (reset w) as [state w1]. generalize MAX_STEP. intros n.
  revert state w1. induction n as [|n IH]; intros s w1; simpl; [constructor|].
  pose proof (Hrange w1 s) as Hr.
  destruct (choice w1 (behavior_policy s)) as [action w2]; simpl in Hr.
  destruct (step w2 action) as [[[next_state reward] done] w3].
  assert (Hx : action < nA) by (by rewrite <- (Hsz s)).
  destruct done; simpl; [constructor; [exact Hx | constructor]|].
  specialize (IH next_state w3).
  destruct (rollout n next_state w3) as [[episode broke] w4]; simpl in *.
  by constructor.
Qed.

Lemma episodes_succeed n w Ct Qt :
  policy_sized → drawn_in_range → drawn_positive →
  wf_table Ct → wf_table Qt → nonneg Ct →
  ∃ Ct' Qt' w', episodes n w Ct Qt = Ok (Ct', Qt', w')
    ∧ wf_table Ct' ∧ wf_table Qt' ∧ nonneg Ct'.
Proof.
  intros Hsz Hrange Hpos. revert w Ct Qt.
  induction n as [|n IH]; intros w Ct Qt HwfC HwfQ Hnn; simpl.
  - exists Ct, Qt, w. by repeat split.
  - unfold run_episode, generate_episode.
    destruct (reset w) as [state w0].
    pose proof (rollout_valid MAX_STEP state w0 Hsz Hrange Hpos) as Hval.
    destruct (rollout MAX_STEP state w0) as [[episode broke] w2];
      simpl in Hval.
    unfold backward_pass.
    destruct (traversal_succeeds episode (length episode)
                (fresh (length episode - 1) Ct Qt) Hsz Hval)
      as (st' & -> & HC & HQ & Hnn' & _); [lia | by repeat split |].
    simpl. by apply IH.
Qed.

(** X17.  With a behavior policy of [nA] entries, draws that are indices of
    its distributions and have a positive probability there, the control
    loop returns a table for every environment and every number of
    episodes: no index is out of range and no division is by zero.  The
    rows of the returned [Q] have [nA] cells. *)
Theorem training_never_faults w num_episodes :
  policy_sized → drawn_in_range → drawn_positive →
  ∃ Qt w', mc_control_importance_sampling w num_episodes = Ok (Qt, w')
           ∧ wf_table Qt.
Proof.
  intros Hsz Hrange Hpos. unfold mc_control_importance_sampling.
  destruct (episodes_succeed num_episodes w ∅ ∅ Hsz Hrange Hpos)
    as (Ct' & Qt' & w' & -> & _ & HQ & _).
  - intros s row Hs. by rewrite lookup_empty in Hs.
  - intros s row Hs. by rewrite lookup_empty in Hs.
  - apply nonneg_empty.
  - simpl. eauto.
Qed.

(** ** A pass never lowers [C] *)

Lemma traversal_table_le (episode : list entry) n st st' :
  Forall taken_positive episode → (0 < st_W st)%Q →
  reverse_traversal episode n st = Ok st' →
  table_le (st_C st) (st_C st').
Proof.
  intros Hep. revert st. induction n as [|t IH]; intros st HW Htr.
  - injection Htr as <-. intros s a. apply Qle_refl.
  - cbn [reverse_traversal] in Htr.
    destruct (episode !! t) as [x|] eqn:Hx; [|discriminate].
    apply bind_Ok in Htr as ([st1 broke] & Hstep & Htr).
    assert (Hle : table_le (st_C st) (st_C st1)).
    { eapply backward_step_table_le; [|exact Hstep]. lra. }
    destruct broke; [by injection Htr as <-|].
    assert (HW1 : (0 < st_W st1)%Q).
    { eapply backward_step_weight_pos; [exact HW | | exact Hstep].
      eapply Forall_lookup_1; [exact Hep | exact Hx]. }
    intros s a. eapply Qle_trans; [apply Hle | by apply IH].
Qed.

(** X18.  A pass over a trajectory whose actions have a positive
    probability under the behavior policy lowers no cell of [C],
    whatever the tables it starts from hold. *)
Theorem backward_pass_monotone (episode : list entry) Ct Qt st' :
  Forall taken_positive episode →
  backward_pass episode Ct Qt = Ok st' →
  table_le Ct (st_C st').
Proof.
  intros Hep Hpass. unfold backward_pass in Hpass.
  by eapply (traversal_table_le _ _ (fresh (length episode - 1) Ct Qt))
    in Hpass.
Qed.


(** ** What a pass leaves alone *)

Lemma backward_step_frame t s a (r : num) st st' (broke : bool) :
  backward_step t (s, a, r) st = Ok (st', broke) →
  ∀ s' a', (s', a') ≠ (s, a) →
    cell (st_C st') s' a' = cell (st_C st) s' a'
    ∧ cell (st_Q st') s' a' = cell (st_Q st) s' a'.
Proof.
  intros Hb s' a' Hne.
  apply backward_step_Ok in Hb as (st1 & Hv & Hp & Hs).
  apply policy_check_Ok in Hp as (_ & _ & -> & -> & _); [|done].
  apply value_update_Ok in Hv as (_ & _ & _ & _ & _ & _ & Hrest & _).
  by apply Hrest.
Qed.

Lemma traversal_frame (episode : list entry) n st st' s a :
  (∀ r : num, (s, a, r) ∉ episode) →
  reverse_traversal episode n st = Ok st' →
  cell (st_C st') s a = cell (st_C st) s a
  ∧ cell (st_Q st') s a = cell (st_Q st) s a.
Proof.
  intros Hnot. revert st. induction n as [|t IH]; intros st Htr.
  - by injection Htr as <-.
  - cbn [reverse_traversal] in Htr.
    destruct (episode !! t) as [[[s1 a1] r1]|] eqn:Hx; [|discriminate].
    apply bind_Ok in Htr as ([st1 broke] & Hstep & Htr).
    assert (Hne : (s, a) ≠ (s1, a1)).
    { intros [= -> ->]. apply (Hnot r1).
      by eapply list_elem_of_lookup_2. }
    destruct (backward_step_frame _ _ _ _ _ _ _ Hstep s a Hne) as [HC HQ].
    destruct broke.
    + by injection Htr as <-.
    + destruct (IH st1 Htr) as [HC' HQ']. by rewrite HC', HQ'.
Qed.

(** X13.  A backward pass changes the cells of [C] and [Q] only at pairs
    (state, action) that occur in the trajectory: every other cell reads
    after the pass what it read before. *)
Theorem backward_pass_frame (episode : list entry) Ct Qt st' s a :
  (∀ r : num, (s, a, r) ∉ episode) →
  backward_pass episode Ct Qt = Ok st' →
  cell (st_C st') s a = cell Ct s a
  ∧ cell (st_Q st') s a = cell Qt s a.
Proof.
  intros Hnot Hpass. unfold backward_pass in Hpass.
  by apply (traversal_frame _ _ _ _ s a Hnot) in Hpass.
Qed.

End Racetrack.

(** * The control loop under the uniform random policy *)

Section Uniform.

Context {State : Type} `{Countable State}.
Variable nA : nat.
Variable World : Type.
Variable reset : World → State * World.
Variable step : World → nat → State * num * bool * World.
Variable choice : World → list num → nat * World.
Variable discount_factor : num.

Lemma random_policy_lookup (s : State) a (p : num) :
  create_random_policy nA s !! a = Some p →
  a < nA ∧ p = (1 / inject_Z (Z.of_nat nA))%Q ∧ (0 < p)%Q.
Proof.
  unfold create_random_policy. rewrite fmap_replicate. intros Hp.
  apply lookup_replicate_1 in Hp as [-> Ha]. repeat split; [done|].
  apply Qlt_shift_div_l; [|lra].
  change 0%Q with (inject_Z 0). rewrite <- Zlt_Qlt. lia.
Qed.


(** X20.  With at least one action and draws that are indices of the
    distribution drawn from, training under the uniform random policy
    returns a table for every environment and every number of episodes;
    the rows of the returned [Q] have [nA] cells. *)
Theorem uniform_policy_trains w num_episodes :
  1 ≤ nA →
  choice_in_range World choice →
  ∃ Qt w',
    mc_control_importance_sampling nA World reset step choice
      (create_random_policy nA) discount_factor w num_episodes
    = Ok (Qt, w')
    ∧ wf_table nA Qt.
Proof.
  intros HnA Hch.
  assert (Hlen : ∀ s : State, length (create_random_policy nA s) = nA).
  { intros s. unfold create_random_policy.
    by rewrite length_fmap, length_replicate. }
  unfold mc_control_importance_sampling.
  destruct (episodes_succeed nA World reset step choice
              (create_random_policy nA) discount_factor num_episodes w ∅ ∅)
    as (Ct' & Qt' & w' & -> & _ & HQ & _).
  - exact Hlen.
  - intros w0 s. apply Hch. intros E.
    pose proof (Hlen s) as Hl. rewrite E in Hl. simpl in Hl. lia.
  - intros w0 s p Hp. by apply random_policy_lookup in Hp as (_ & _ & Hpos).
  - intros s row Hs. by rewrite lookup_empty in Hs.
  - intros s row Hs. by rewrite lookup_empty in Hs.
  - apply nonneg_empty.
  - simpl. eauto.
Qed.

End Uniform.

(** * Concrete runs

    States are natural numbers; the behavior policy is the uniform one
    over two actions unless said otherwise, and the discount factor is 1. *)

(** The row [[0.2, 0.5, 0.5]] gives [[0, 1, 0]]. *)
Example greedy_policy_tie :
  policy_fn 3 ({[ 0 := [2#10; 5#10; 5#10]%Q ]} : gmap nat (list Q)) 0
  = Ok ([0; 1; 0]%Q, {[ 0 := [2#10; 5#10; 5#10]%Q ]}).
Proof. vm_compute. reflexivity. Qed.

Lemma greedy_policy_one_hot_witness :
  (getitem 3 ({[ 0 := [2#10; 5#10; 5#10]%Q ]} : gmap nat (list Q)) 0).1
  = [2#10; 5#10; 5#10]%Q
  ∧ first_max [2#10; 5#10; 5#10]%Q 1
  ∧ ∃ dist,
      policy_fn 3 ({[ 0 := [2#10; 5#10; 5#10]%Q ]} : gmap nat (list Q)) 0
      = Ok (dist,
            (getitem 3 ({[ 0 := [2#10; 5#10; 5#10]%Q ]} : gmap nat (list Q))
               0).2)
      ∧ one_hot (length [2#10; 5#10; 5#10]%Q) 1 dist.
Proof.
  assert (Hrow :
    (getitem 3 ({[ 0 := [2#10; 5#10; 5#10]%Q ]} : gmap nat (list Q)) 0).1
    = [2#10; 5#10; 5#10]%Q) by reflexivity.
  assert (Hmax : first_max [2#10; 5#10; 5#10]%Q 1).
  { exists (5#10)%Q. split; [reflexivity|]. split.
    - intros [|[|[|j]]] x Hj; simpl in Hj; try discriminate;
        injection Hj as <-; unfold Qle; simpl; lia.
    - intros [|j] x Hlt Hj; [|lia].
      injection Hj as <-. unfold Qlt; simpl; lia. }
  split; [exact Hrow|]. split; [exact Hmax|].
  exact (greedy_policy_one_hot 3 _ 0 _ 1 Hrow Hmax).
Defined.

Lemma greedy_policy_unwritten_witness :
  1 ≤ 2
  ∧ ((∅ : gmap nat (list Q)) !! 0 = None
     ∨ (∅ : gmap nat (list Q)) !! 0 = Some (zeros 2))
  ∧ ∃ dist Qt', policy_fn 2 (∅ : gmap nat (list Q)) 0 = Ok (dist, Qt')
                ∧ dist = 1%Q :: replicate (2 - 1) 0%Q
                ∧ one_hot 2 0 dist.
Proof.
  assert (H1 : 1 ≤ 2) by lia.
  assert (H2 : (∅ : gmap nat (list Q)) !! 0 = None
               ∨ (∅ : gmap nat (list Q)) !! 0 = Some (zeros 2))
    by (left; reflexivity).
  split; [exact H1|]. split; [exact H2|].
  exact (greedy_policy_unwritten 2 ∅ 0 H1 H2).
Defined.

(** C4 as stated fails: evaluating the greedy policy at state 0, absent
    from the empty [Q], returns with the row [[0, 0]] stored for it. *)
Lemma greedy_policy_mutates_Q :
  (∅ : gmap nat (list Q)) !! 0 = None
  ∧ policy_fn 2 (∅ : gmap nat (list Q)) 0
    = Ok ([1; 0]%Q, {[ 0 := [0; 0]%Q ]})
  ∧ ({[ 0 := [0; 0]%Q ]} : gmap nat (list Q)) ≠ ∅.
Proof.
  split; [reflexivity|]. split; [vm_compute; reflexivity|].
  intros E. apply (f_equal (λ m : gmap nat (list Q), m !! 0)) in E.
  discriminate E.
Qed.

Lemma greedy_policy_lazy_row_witness :
  policy_fn 2 (∅ : gmap nat (list Q)) 0 = Ok ([1; 0]%Q, {[ 0 := [0; 0]%Q ]})
  ∧ ((∅ : gmap nat (list Q)) !! 0 = None
     → ({[ 0 := [0; 0]%Q ]} : gmap nat (list Q)) = <[0 := zeros 2]> ∅)
  ∧ (is_Some ((∅ : gmap nat (list Q)) !! 0)
     → ({[ 0 := [0; 0]%Q ]} : gmap nat (list Q)) = ∅)
  ∧ (∀ s', s' ≠ 0 →
       ({[ 0 := [0; 0]%Q ]} : gmap nat (list Q)) !! s'
       = (∅ : gmap nat (list Q)) !! s')
  ∧ (∀ s' a, cell ({[ 0 := [0; 0]%Q ]} : gmap nat (list Q)) s' a
             = cell (∅ : gmap nat (list Q)) s' a).
Proof.
  assert (Hp : policy_fn 2 (∅ : gmap nat (list Q)) 0
               = Ok ([1; 0]%Q, {[ 0 := [0; 0]%Q ]}))
    by (vm_compute; reflexivity).
  split; [exact Hp|].
  exact (greedy_policy_lazy_row 2 ∅ 0 _ _ Hp).
Defined.

Lemma random_policy_uniform_witness :
  1 ≤ 2
  ∧ create_random_policy 2 0 = replicate 2 (1 / inject_Z (Z.of_nat 2))%Q
  ∧ length (create_random_policy 2 0) = 2
  ∧ (∀ i, i < 2 →
       create_random_policy 2 0 !! i = Some (1 / inject_Z (Z.of_nat 2))%Q)
  ∧ (∀ s' : nat, create_random_policy 2 s' = create_random_policy 2 0)
  ∧ (0 < 1 / inject_Z (Z.of_nat 2))%Q
  ∧ (total (create_random_policy 2 0) == 1)%Q.
Proof.
  assert (H1 : 1 ≤ 2) by lia.
  split; [exact H1|].
  exact (random_policy_uniform 2 0 H1).
Defined.

(** In the trajectory [(0, 0, 1); (1, 1, -1)] the latest step takes
    action 1 at state 1 with reward -1: after its update the row
    [Q[1]] is [[0, -1]], whose argmax is 0, and the traversal stops
    without looking at the entry of index 0. *)
Lemma mismatch_stops_traversal_witness :
  ∃ st1 dist Q3 best,
    [(0, 0, 1%Q); (1, 1, (-1)%Q)] !! 1 = Some (1, 1, (-1)%Q)
    ∧ value_update 2 1 1 (1, 1, (-1)%Q) (fresh 1 ∅ ∅) = Ok st1
    ∧ target_policy 2 (st_Q st1) 1 = Ok (dist, Q3)
    ∧ argmax dist = Ok best
    ∧ 1 ≠ best
    ∧ ∃ st',
        reverse_traversal 2 (create_random_policy 2) 1
          [(0, 0, 1%Q); (1, 1, (-1)%Q)] 2 (fresh 1 ∅ ∅) = Ok st'
        ∧ st_t st' = 1 ∧ st_G st' = st_G st1
        ∧ st_W st' = st_W (fresh (State:=nat) 1 ∅ ∅)
        ∧ st_C st' = st_C st1 ∧ st_Q st' = st_Q st1
        ∧ cell (st_C st') 1 1
          = (cell (st_C (fresh (State:=nat) 1 ∅ ∅)) 1%nat 1
             + st_W (fresh (State:=nat) 1 ∅ ∅))%Q
        ∧ (∀ s' a', (s', a') ≠ (1, 1) →
             cell (st_C st') s' a'
             = cell (st_C (fresh (State:=nat) 1 ∅ ∅)) s' a'
             ∧ cell (st_Q st') s' a'
               = cell (st_Q (fresh (State:=nat) 1 ∅ ∅)) s' a').
Proof.
  exists (mkLoop 1 (-1 # 1)%Q 1%Q {[ 1 := [0; 1]%Q ]} {[ 1 := [0; -1 # 1]%Q ]}).
  exists [1; 0]%Q, {[ 1 := [0; -1 # 1]%Q ]}, 0.
  assert (Hx : [(0, 0, 1%Q); (1, 1, (-1)%Q)] !! 1 = Some (1, 1, (-1)%Q))
    by reflexivity.
  assert (Hv : value_update 2 1 1 (1, 1, (-1)%Q) (fresh 1 ∅ ∅)
               = Ok (mkLoop 1 (-1 # 1)%Q 1%Q {[ 1 := [0; 1]%Q ]}
                       {[ 1 := [0; -1 # 1]%Q ]}))
    by (vm_compute; reflexivity).
  assert (Hp : target_policy 2 ({[ 1 := [0; -1 # 1]%Q ]} : gmap nat (list Q)) 1
               = Ok ([1; 0]%Q, {[ 1 := [0; -1 # 1]%Q ]}))
    by (vm_compute; reflexivity).
  assert (Hb : argmax [1; 0]%Q = Ok 0) by reflexivity.
  assert (Hne : 1 ≠ 0) by lia.
  repeat (split; [assumption|]).
  exact (mismatch_stops_traversal 2 (create_random_policy 2) 1
           _ 1 1 1 _ _ _ _ _ _ Hx Hv Hp Hb Hne).
Defined.

(** The same run through [backward_pass]: one cell of [C] and one cell
    of [Q] have changed, and state 0 has no row. *)
Example backward_pass_mismatch :
  backward_pass 2 (create_random_policy 2) 1
    [(0, 0, 1%Q); (1, 1, (-1)%Q)] ∅ ∅
  = Ok (mkLoop 1 (-1 # 1)%Q 1%Q {[ 1 := [0; 1]%Q ]} {[ 1 := [0; -1 # 1]%Q ]}).
Proof. vm_compute. reflexivity. Qed.

Lemma first_visit_update_witness :
  wf_table 2 (st_C (fresh (State:=nat) 0 ∅ ∅))
  ∧ wf_table 2 (st_Q (fresh (State:=nat) 0 ∅ ∅))
  ∧ 0 < 2
  ∧ (st_W (fresh (State:=nat) 0 ∅ ∅) == 1)%Q
  ∧ (cell (st_C (fresh (State:=nat) 0 ∅ ∅)) 0%nat 0 == 0)%Q
  ∧ (cell (st_Q (fresh (State:=nat) 0 ∅ ∅)) 0%nat 0 == 0)%Q
  ∧ ∃ st1, value_update 2 1 0 (0, 0, 1%Q) (fresh 0 ∅ ∅) = Ok st1
      ∧ st_G st1 = (1 * st_G (fresh (State:=nat) 0 ∅ ∅) + 1)%Q
      ∧ (cell (st_C st1) 0%nat 0 == 1)%Q
      ∧ (cell (st_Q st1) 0%nat 0 == st_G st1)%Q.
Proof.
  assert (Hwf : wf_table 2 (∅ : gmap nat (list Q))).
  { intros s row Hs. rewrite lookup_empty in Hs. discriminate Hs. }
  assert (Ha : 0 < 2) by lia.
  assert (HW : (st_W (fresh (State:=nat) 0 ∅ ∅) == 1)%Q) by reflexivity.
  assert (HC : (cell (st_C (fresh (State:=nat) 0 ∅ ∅)) 0%nat 0 == 0)%Q)
    by reflexivity.
  assert (HQ : (cell (st_Q (fresh (State:=nat) 0 ∅ ∅)) 0%nat 0 == 0)%Q)
    by reflexivity.
  repeat (split; [assumption|]).
  exact (first_visit_update 2 1 0 0 0 1%Q (fresh 0 ∅ ∅) Hwf Hwf Ha HW HC HQ).
Defined.

(** The one-step episode [(s0, a0, 1.0)] from empty tables, for either
    action: [C[s0][a0] = 1] and [Q[s0][a0] = 1]. *)
Example one_step_episode (a0 : nat) :
  a0 < 2 →
  ∃ st, backward_pass 2 (create_random_policy 2) 1 [(0, a0, 1%Q)] ∅ ∅ = Ok st
        ∧ cell (st_C st) 0 a0 = 1%Q ∧ cell (st_Q st) 0 a0 = 1%Q.
Proof.
  intros Ha. destruct a0 as [|[|a0]]; [| |lia];
    (eexists; split; [vm_compute; reflexivity|]; split; reflexivity).
Qed.


(** The accumulation on binary64 numbers is the same three operations
    in the same order. *)
Example binary64_accumulate_three (g r1 r2 r3 : PrimFloat.float) :
  Binary64.accumulate g [r3; r2; r1]
  = PrimFloat.add (PrimFloat.mul g
      (PrimFloat.add (PrimFloat.mul g
         (PrimFloat.add (PrimFloat.mul g PrimFloat.zero) r3)) r2)) r1.
Proof. reflexivity. Qed.



Lemma weight_accumulator_monotone_witness :
  ∃ st',
    reach 2 (create_random_policy 2) 1
      (policy_positive (create_random_policy 2)) (fresh (State:=nat) 0 ∅ ∅)
    ∧ backward_step 2 (create_random_policy 2) 1 0 (0, 0, 1%Q) (fresh 0 ∅ ∅)
      = Ok (st', false)
    ∧ table_le (st_C (fresh (State:=nat) 0 ∅ ∅)) (st_C st')
    ∧ nonneg (st_C st').
Proof.
  exists (mkLoop 0 1%Q 2%Q {[ 0 := [1; 0]%Q ]} {[ 0 := [1; 0]%Q ]}).
  assert (Hreach : reach 2 (create_random_policy 2) 1
            (policy_positive (create_random_policy 2))
            (fresh (State:=nat) 0 ∅ ∅)) by apply reach_start.
  assert (Hb : backward_step 2 (create_random_policy 2) 1 0 (0, 0, 1%Q)
                 (fresh 0 ∅ ∅)
               = Ok (mkLoop 0 1%Q 2%Q {[ 0 := [1; 0]%Q ]}
                       {[ 0 := [1; 0]%Q ]}, false))
    by (vm_compute; reflexivity).
  split; [exact Hreach|]. split; [exact Hb|].
  exact (weight_accumulator_monotone 2 (create_random_policy 2) 1
           0 _ _ _ _ Hreach Hb).
Defined.

(** An environment that reports [done] at its third step: the episode
    has three entries and the loop was left through [break]. *)
Example generate_episode_done :
  generate_episode nat (λ w, (0, 0)) (λ w a, (S w, (-1)%Q, w =? 2, S w))
    (λ w probs, (0, w)) (create_random_policy 2) 5
  = ([(0, 0, (-1)%Q); (1, 0, (-1)%Q); (2, 0, (-1)%Q)], true, 3).
Proof. vm_compute. reflexivity. Qed.

(** An environment that never reports [done]: the episode has [MAX_STEP]
    entries and the loop ran out. *)
Example generate_episode_exhausted :
  length (generate_episode nat (λ w, (0, 0))
            (λ w a, (S w, (-1)%Q, false, S w))
            (λ w probs, (0, w)) (create_random_policy 2) 5).1.1 = 70
  ∧ (generate_episode nat (λ w, (0, 0))
       (λ w a, (S w, (-1)%Q, false, S w))
       (λ w probs, (0, w)) (create_random_policy 2) 5).1.2 = false.
Proof. vm_compute. split; reflexivity. Qed.

(** ** Concrete runs for the further properties *)

Lemma greedy_policy_distribution_witness :
  policy_fn 3 ({[ 0 := [2#10; 5#10; 5#10]%Q ]} : gmap nat (list Q)) 0
  = Ok ([0; 1; 0]%Q, {[ 0 := [2#10; 5#10; 5#10]%Q ]})
  ∧ length [0; 1; 0]%Q
    = length
        (getitem 3 ({[ 0 := [2#10; 5#10; 5#10]%Q ]} : gmap nat (list Q)) 0).1
  ∧ (∀ i p, [0; 1; 0]%Q !! i = Some p → p = 0%Q ∨ p = 1%Q)
  ∧ (total [0; 1; 0]%Q == 1)%Q.
Proof.
  refine ((λ Hp, conj Hp (greedy_policy_distribution 3 _ 0 _ _ Hp)) _).
  vm_compute. reflexivity.
Defined.

Lemma greedy_policy_idempotent_witness :
  policy_fn 2 (∅ : gmap nat (list Q)) 0 = Ok ([1; 0]%Q, {[ 0 := [0; 0]%Q ]})
  ∧ policy_fn 2 ({[ 0 := [0; 0]%Q ]} : gmap nat (list Q)) 0
    = Ok ([1; 0]%Q, {[ 0 := [0; 0]%Q ]}).
Proof.
  refine ((λ Hp, conj Hp (greedy_policy_idempotent 2 ∅ 0 _ _ Hp)) _).
  vm_compute. reflexivity.
Defined.

Lemma greedy_policy_total_witness :
  1 ≤ 2
  ∧ wf_table 2 (∅ : gmap nat (list Q))
  ∧ ∃ i dist, i < 2
      ∧ first_max (getitem 2 (∅ : gmap nat (list Q)) 0).1 i
      ∧ policy_fn 2 (∅ : gmap nat (list Q)) 0
        = Ok (dist, (getitem 2 (∅ : gmap nat (list Q)) 0).2)
      ∧ one_hot 2 i dist.
Proof.
  refine ((λ H1 H2, conj H1 (conj H2 (greedy_policy_total 2 ∅ 0 H1 H2))) _ _).
  - lia.
  - intros s row Hs. rewrite lookup_empty in Hs. discriminate Hs.
Defined.

Lemma add_then_read_witness :
  ∃ T', add_at 2 (∅ : gmap nat (list Q)) 0 1 (1#2)%Q = Ok T'
    ∧ read 2 T' 0 1
      = Ok ((cell (∅ : gmap nat (list Q)) 0%nat 1 + (1#2))%Q, T').
Proof.
  eexists.
  refine ((λ Ha, conj Ha (add_then_read 2 ∅ 0 1 (1#2)%Q _ Ha)) _).
  vm_compute. reflexivity.
Defined.

Lemma value_update_out_of_range_witness :
  wf_table 2 (st_C (fresh (State:=nat) 0 ∅ ∅))
  ∧ 2 ≤ 5
  ∧ add_at 2 (st_C (fresh (State:=nat) 0 ∅ ∅)) 0 5
      (st_W (fresh (State:=nat) 0 ∅ ∅)) = Err IndexError
  ∧ value_update 2 1 0 (0, 5, 1%Q) (fresh 0 ∅ ∅) = Err IndexError
  ∧ backward_step 2 (create_random_policy 2) 1 0 (0, 5, 1%Q) (fresh 0 ∅ ∅)
    = Err IndexError.
Proof.
  refine ((λ H1 H2, conj H1 (conj H2
    (value_update_out_of_range 2 (create_random_policy 2) 1 0 0 5 1%Q
       (fresh 0 ∅ ∅) H1 H2))) _ _).
  - intros s row Hs. simpl in Hs. rewrite lookup_empty in Hs.
    discriminate Hs.
  - lia.
Defined.

Lemma matched_action_weight_witness :
  ∃ st1,
    value_update 2 1 0 (0, 0, 1%Q) (fresh 0 ∅ ∅) = Ok st1
    ∧ argmax (getitem 2 (st_Q st1) 0).1 = Ok 0
    ∧ (create_random_policy 2 0 !! 0 = None →
         backward_step 2 (create_random_policy 2) 1 0 (0, 0, 1%Q)
           (fresh 0 ∅ ∅) = Err IndexError)
    ∧ (∀ p : Q, create_random_policy 2 0 !! 0 = Some p → ¬ (p == 0)%Q →
         backward_step 2 (create_random_policy 2) 1 0 (0, 0, 1%Q)
           (fresh 0 ∅ ∅)
         = Ok (mkLoop (st_t st1) (st_G st1) (st_W st1 * 1 / p)%Q
                 (st_C st1) (st_Q st1), false)).
Proof.
  eexists.
  refine ((λ H1 H2, conj H1 (conj H2
    (matched_action_weight 2 (create_random_policy 2) 1 0 0 0 1%Q
       (fresh 0 ∅ ∅) _ H1 H2))) _ _).
  - vm_compute. reflexivity.
  - vm_compute. reflexivity.
Defined.

(** A behavior policy with a single entry and the greedy action 1: the
    iteration fails at [behavior_policy(state)[action]]. *)
Example matched_action_short_policy :
  backward_step 2 (λ _ : nat, [1%Q]) 1 0 (0, 1, 1%Q) (fresh 0 ∅ ∅)
  = Err IndexError.
Proof. vm_compute. reflexivity. Qed.

Lemma check_keeps_tables_witness :
  ∃ st' broke,
    backward_step 2 (create_random_policy 2) 1 0 (0, 0, 1%Q) (fresh 0 ∅ ∅)
    = Ok (st', broke)
    ∧ ∃ st1, value_update 2 1 0 (0, 0, 1%Q) (fresh 0 ∅ ∅) = Ok st1
        ∧ st_Q st' = st_Q st1 ∧ st_C st' = st_C st1
        ∧ st_G st' = st_G st1 ∧ st_t st' = 0.
Proof.
  eexists _, _.
  refine ((λ Hb, conj Hb
    (check_keeps_tables 2 (create_random_policy 2) 1 0 0 0 1%Q
       (fresh 0 ∅ ∅) _ _ Hb)) _).
  vm_compute. reflexivity.
Defined.

Lemma traversal_break_reason_witness :
  ∃ st',
    reverse_traversal 2 (create_random_policy 2) 1
      [(0, 0, 1%Q); (1, 1, (-1)%Q)] 2 (fresh 1 ∅ ∅) = Ok st'
    ∧ 0 < 2
    ∧ 0 < st_t st'
    ∧ ∃ (s : nat) a (r : Q) best,
        [(0, 0, 1%Q); (1, 1, (-1)%Q)] !! st_t st' = Some (s, a, r)
        ∧ argmax (getitem 2 (st_Q st') s).1 = Ok best
        ∧ a ≠ best.
Proof.
  eexists.
  assert (H2 : 0 < 2) by lia.
  refine ((λ H1 H3, conj H1 (conj H2 (conj H3
    (traversal_break_reason 2 (create_random_policy 2) 1
       [(0, 0, 1%Q); (1, 1, (-1)%Q)] 2 (fresh 1 ∅ ∅) _ H1 H2 H3)))) _ _).
  - vm_compute. reflexivity.
  - simpl. lia.
Defined.

(** Rewards 1, 1, -1: the pass stops at the latest step with [G = -1]. *)
Lemma backward_pass_return_witness :
  ∃ st',
    [(0, 0, 1%Q); (1, 1, 1%Q); (2, 1, (-1)%Q)] ≠ []
    ∧ backward_pass 2 (create_random_policy 2) 1
        [(0, 0, 1%Q); (1, 1, 1%Q); (2, 1, (-1)%Q)] ∅ ∅ = Ok st'
    ∧ st_t st' < length [(0, 0, 1%Q); (1, 1, 1%Q); (2, 1, (-1)%Q)]
    ∧ st_G st'
      = discounted_return 1 0%Q
          (rewards
             (drop (st_t st') [(0, 0, 1%Q); (1, 1, 1%Q); (2, 1, (-1)%Q)])).
Proof.
  eexists.
  assert (H1 : [(0, 0, 1%Q); (1, 1, 1%Q); (2, 1, (-1)%Q)] ≠ [])
    by discriminate.
  refine ((λ H2, conj H1 (conj H2
    (backward_pass_return 2 (create_random_policy 2) 1
       [(0, 0, 1%Q); (1, 1, 1%Q); (2, 1, (-1)%Q)] ∅ ∅ _ H1 H2))) _).
  vm_compute. reflexivity.
Defined.

(** Two episodes in an environment that reports [done] at its third
    step, action 0 being drawn every time. *)
Lemma trained_tables_shape_witness :
  ∃ Ct' Qt' w',
    episodes 2 nat (λ w, (0, 0)) (λ w a, (S w, (-1)%Q, w =? 2, S w))
      (λ w probs, (0, w)) (create_random_policy 2) 1 2 5 ∅ ∅
    = Ok (Ct', Qt', w')
    ∧ wf_table 2 Ct' ∧ wf_table 2 Qt' ∧ dom Ct' = dom Qt'.
Proof.
  eexists _, _, _.
  refine ((λ He, conj He
    (trained_tables_shape 2 nat (λ w, (0, 0))
       (λ w a, (S w, (-1)%Q, w =? 2, S w))
       (λ w probs, (0, w)) (create_random_policy 2) 1 2 5 _ _ _ He)) _).
  vm_compute. reflexivity.
Defined.

Lemma backward_pass_succeeds_witness :
  policy_sized (State:=nat) 2 (create_random_policy 2)
  ∧ Forall (valid_entry 2 (create_random_policy 2))
      [(0, 0, 1%Q); (1, 1, (-1)%Q)]
  ∧ wf_table 2 (∅ : gmap nat (list Q))
  ∧ wf_table 2 (∅ : gmap nat (list Q))
  ∧ nonneg (∅ : gmap nat (list Q))
  ∧ ∃ st',
      backward_pass 2 (create_random_policy 2) 1
        [(0, 0, 1%Q); (1, 1, (-1)%Q)] ∅ ∅ = Ok st'
      ∧ wf_table 2 (st_C st') ∧ wf_table 2 (st_Q st') ∧ nonneg (st_C st').
Proof.
  refine ((λ H1 H2 H3 H4, conj H1 (conj H2 (conj H3 (conj H3 (conj H4
    (backward_pass_succeeds 2 (create_random_policy 2) 1
       [(0, 0, 1%Q); (1, 1, (-1)%Q)] ∅ ∅ H1 H2 H3 H3 H4)))))) _ _ _ _).
  - intros s. reflexivity.
  - constructor; [|constructor; [|constructor]];
      (split; [simpl; lia |
               intros p Hp; vm_compute in Hp; injection Hp as <-;
               reflexivity]).
  - intros s row Hs. rewrite lookup_empty in Hs. discriminate Hs.
  - apply nonneg_empty.
Defined.

Lemma generated_actions_in_range_witness :
  policy_sized (State:=nat) 2 (create_random_policy 2)
  ∧ drawn_in_range (State:=nat) nat (λ w probs, (0, w))
      (create_random_policy 2)
  ∧ Forall (λ x : entry, x.1.2 < 2)
      (generate_episode nat (λ w, (0, 0))
         (λ w a, (S w, (-1)%Q, w =? 2, S w))
         (λ w probs, (0, w)) (create_random_policy 2) 5).1.1.
Proof.
  refine ((λ H1 H2, conj H1 (conj H2
    (generated_actions_in_range 2 nat (λ w, (0, 0))
       (λ w a, (S w, (-1)%Q, w =? 2, S w))
       (λ w probs, (0, w)) (create_random_policy 2) 5 H1 H2))) _ _).
  - intros s. reflexivity.
  - intros w s. simpl. lia.
Defined.

Lemma training_never_faults_witness :
  policy_sized (State:=nat) 2 (create_random_policy 2)
  ∧ drawn_in_range (State:=nat) nat (λ w probs, (0, w))
      (create_random_policy 2)
  ∧ drawn_positive (State:=nat) nat (λ w probs, (0, w))
      (create_random_policy 2)
  ∧ ∃ (Qt : gmap nat (list Q)) w',
      mc_control_importance_sampling 2 nat (λ w, (0, 0))
        (λ w a, (S w, (-1)%Q, w =? 2, S w))
        (λ w probs, (0, w)) (create_random_policy 2) 1 5 2
      = Ok (Qt, w')
      ∧ wf_table 2 Qt.
Proof.
  refine ((λ H1 H2 H3, conj H1 (conj H2 (conj H3
    (training_never_faults 2 nat (λ w, (0, 0))
       (λ w a, (S w, (-1)%Q, w =? 2, S w))
       (λ w probs, (0, w)) (create_random_policy 2) 1 5 2 H1 H2 H3)))) _ _ _).
  - intros s. reflexivity.
  - intros w s. simpl. lia.
  - intros w s p Hp. vm_compute in Hp. injection Hp as <-. reflexivity.
Defined.

Lemma backward_pass_monotone_witness :
  ∃ st',
    Forall (taken_positive (State:=nat) (create_random_policy 2))
      [(0, 0, 1%Q); (1, 1, (-1)%Q)]
    ∧ backward_pass 2 (create_random_policy 2) 1
        [(0, 0, 1%Q); (1, 1, (-1)%Q)] {[ 1 := [0; 3]%Q ]} ∅ = Ok st'
    ∧ table_le ({[ 1 := [0; 3]%Q ]} : gmap nat (list Q)) (st_C st').
Proof.
  eexists.
  assert (H1 : Forall (taken_positive (State:=nat) (create_random_policy 2))
                 [(0, 0, 1%Q); (1, 1, (-1)%Q)]).
  { constructor; [|constructor; [|constructor]];
      (intros p Hp; vm_compute in Hp; injection Hp as <-; reflexivity). }
  refine ((λ H2, conj H1 (conj H2
    (backward_pass_monotone 2 (create_random_policy 2) 1
       [(0, 0, 1%Q); (1, 1, (-1)%Q)] {[ 1 := [0; 3]%Q ]} ∅ _ H1 H2))) _).
  vm_compute. reflexivity.
Defined.

Lemma uniform_policy_trains_witness :
  1 ≤ 2
  ∧ choice_in_range nat (λ w probs, (0, w))
  ∧ ∃ (Qt : gmap nat (list Q)) w',
      mc_control_importance_sampling 2 nat (λ w, (0, 0))
        (λ w a, (S w, (-1)%Q, w =? 2, S w))
        (λ w probs, (0, w)) (create_random_policy 2) 1 5 2
      = Ok (Qt, w')
      ∧ wf_table 2 Qt.
Proof.
  refine ((λ H1 H2, conj H1 (conj H2
    (uniform_policy_trains 2 nat (λ w, (0, 0))
       (λ w a, (S w, (-1)%Q, w =? 2, S w))
       (λ w probs, (0, w)) 1 5 2 H1 H2))) _ _).
  - lia.
  - intros w probs Hne. destruct probs as [|p probs]; [done|]. simpl. lia.
Defined.

(** The pair (0, 1) does not occur in the trajectory: its cells still
    read 0 after the pass. *)
Lemma backward_pass_frame_witness :
  ∃ st',
    (∀ r : Q, (0, 1, r) ∉ [(0, 0, 1%Q); (1, 1, (-1)%Q)])
    ∧ backward_pass 2 (create_random_policy 2) 1
        [(0, 0, 1%Q); (1, 1, (-1)%Q)] ∅ ∅ = Ok st'
    ∧ cell (st_C st') 0 1 = cell (∅ : gmap nat (list Q)) 0 1
    ∧ cell (st_Q st') 0 1 = cell (∅ : gmap nat (list Q)) 0 1.
Proof.
  eexists.
  assert (H1 : ∀ r : Q, (0, 1, r) ∉ [(0, 0, 1%Q); (1, 1, (-1)%Q)]).
  { intros r Hin. apply list_elem_of_In in Hin.
    destruct Hin as [E|[E|[]]]; discriminate E. }
  refine ((λ H2, conj H1 (conj H2
    (backward_pass_frame 2 (create_random_policy 2) 1
       [(0, 0, 1%Q); (1, 1, (-1)%Q)] ∅ ∅ _ 0 1 H1 H2))) _).
  vm_compute. reflexivity.
Defined.

(** With no action at all the lazily created row is empty and the
    greedy policy raises. *)
Example greedy_policy_no_action :
  policy_fn 0 (∅ : gmap nat (list Q)) 0 = Err ValueError.
Proof. reflexivity. Qed.
